(** * RAWR input reduction (rawr.py): beam search over token deletions

    A shallow embedding of [remove_one] and [get_rawr] and the properties
    of the search: prediction preservation, minimality bookkeeping,
    deduplication, index tracking, termination and the flat round state. *)

From stdpp Require Import numbers list sorting relations.

Local Open Scope Z_scope.

(** ** Data *)

(** Token ids and class labels are integers.  Saliency scores are float32
    values in the source; the search only ever compares and negates them,
    so they are embedded in [Z] as a totally ordered set (no NaN). *)
Definition token : Type := Z.
Definition label : Type := Z.
Definition score : Type := Z.

(** The external collaborators of the search.
    - [predict x] is [model.predict([x], argmax=True)] for one sequence:
      the model is a deterministic function of the sequence, and a
      batched call answers sequence by sequence.
    - [saliency x j] is the entry [j] of the one-hot gradient of [x]
      (gradient of the loss dotted with the embedding of token [j]), as
      [model.get_grad] and [chainer.grad] compute it.
    - [argsort] is [xp.argsort]: some ascending ranking of the positions
      of an array; which of two positions with equal score comes first is
      left to the backend. *)
Class Model := {
  predict : list token → label;
  saliency : list token → nat → score;
  argsort : list score → list nat;
  argsort_perm : ∀ l, argsort l ≡ₚ seq 0 (length l);
  argsort_sorted : ∀ l, Sorted Z.le ((λ j, l !!! j) <$> argsort l)
}.

(** ** Python helpers *)

(** [sorted(l, key=key)]: Python's sort is stable, so its result is the
    one of a stable insertion sort. *)
Fixpoint insert_by {A} (key : A → Z) (a : A) (l : list A) : list A :=
  match l with
  | [] => [a]
  | b :: l' =>
    if decide (key a ≤ key b) then a :: l else b :: insert_by key a l'
  end.

Definition sorted {A} (key : A → Z) (l : list A) : list A :=
  foldr (insert_by key) [] l.

(** [x[:j] + x[j+1:]] *)
Definition remove_at {A} (j : nat) (x : list A) : list A :=
  take j x ++ drop (S j) x.

(** [l[i] = v]; an index out of range raises. *)
Definition assign {A} (l : list A) (i : nat) (v : A) : option (list A) :=
  if decide (i < length l)%nat then Some (<[i:=v]> l) else None.

(** [[l[i] for i in ixs]] *)
Definition gather {A} (l : list A) (ixs : list nat) : option (list A) :=
  mapM (λ i, l !! i) ixs.

(** ** The beam expander: [remove_one] *)

Definition coordinate : Type := score * (nat * nat).

(** The flat round state handed from round to round. *)
Record beams := Beams {
  b_xs : list (list token);
  b_n_beams : list nat;
  b_indices : list (list nat);
  b_removed_indices : list (list nat)
}.

Section remove_one.
Context `{M : Model}.

(** [get_onehot_grad(model, xs)]: one array per sequence, with one score
    per token of the sequence. *)
Definition get_onehot_grad (xs : list (list token)) : list (list score) :=
  (λ x, saliency x <$> seq 0 (length x)) <$> xs.

(** The beam size is a count, hence a natural number. *)
Context (xs : list (list token)) (indices removed_indices : list (list nat)).
Context (max_beam_size : nat).

Definition onehot_grad : list (list score) := get_onehot_grad xs.

(** [order = [xp.argsort(x[:-1]).tolist() for x in onehot_grad]] *)
Definition order : list (list nat) :=
  (λ g, argsort (take (length g - 1) g)) <$> onehot_grad.

(** [for j in order[i][:max_beam_size]:
       coordinates.append((onehot_grad[i][j], (i, j)))] *)
Definition beam_coordinates (i : nat) : option (list coordinate) :=
  o ← order !! i;
  mapM (λ j, g ← onehot_grad !! i; s ← g !! j; Some (s, (i, j)))
       (take max_beam_size o).

Definition example_coordinates (start nb : nat) : option (list coordinate) :=
  cs ← mapM beam_coordinates (seq start nb); Some (concat cs).

(** The body of [for i, j in coordinates]. *)
Definition child (c : nat * nat) : option (list token * list nat * list nat) :=
  x ← xs !! c.1;
  idx ← indices !! c.1;
  rem ← removed_indices !! c.1;
  p ← idx !! c.2;
  Some (remove_at c.2 x, remove_at c.2 idx, rem ++ [p]).

(** [for example_idx in range(n_examples)], the remaining beam counts
    being [n_beams]. *)
Fixpoint remove_one_loop (n_beams : list nat) (start : nat) (new : beams)
    : option beams :=
  match n_beams with
  | [] => Some new
  | nb :: n_beams' =>
    if decide (nb = 0)%nat then
      remove_one_loop n_beams' start
        (Beams (b_xs new) (b_n_beams new ++ [0%nat])
               (b_indices new) (b_removed_indices new))
    else
      coordinates ← example_coordinates start nb;
      if decide (length coordinates = 0)%nat then
        remove_one_loop n_beams' (start + nb)
          (Beams (b_xs new) (b_n_beams new ++ [0%nat])
                 (b_indices new) (b_removed_indices new))
      else
        let coordinates := sorted (λ c : coordinate, - c.1) coordinates in
        let coordinates := take max_beam_size (coordinates.*2) in
        children ← mapM child coordinates;
        remove_one_loop n_beams' (start + nb)
          (Beams (b_xs new ++ children.*1.*1)
                 (b_n_beams new ++ [length coordinates])
                 (b_indices new ++ children.*1.*2)
                 (b_removed_indices new ++ children.*2))
  end.
End remove_one.

Definition remove_one `{M : Model} (bs : beams) (max_beam_size : nat)
    : option beams :=
  remove_one_loop (b_xs bs) (b_indices bs) (b_removed_indices bs) max_beam_size
    (b_n_beams bs) 0 (Beams [] [] [] []).

(** ** The search controller: [get_rawr] *)

Record finals := Finals {
  final_xs : list (list (list token));
  final_removed : list (list (list nat));
  final_length : list nat
}.

Section rounds.
Context `{M : Model}.
Context (ys_0 : list label) (max_beam_size : nat).

Section bookkeeping.
Context (bs : beams) (ys : list label).

(** Lines 104-112: record a candidate that keeps the prediction. *)
Definition record (example_idx i : nat) (x : list token) (fin : finals)
    : option finals :=
  fl ← final_length fin !! example_idx;
  if decide (length x < fl)%nat then
    fl' ← assign (final_length fin) example_idx (length x);
    r ← b_removed_indices bs !! i;
    fr' ← assign (final_removed fin) example_idx [r];
    fx' ← assign (final_xs fin) example_idx [x];
    Some (Finals fx' fr' fl')
  else if decide (length x = fl) then
    fx ← final_xs fin !! example_idx;
    if decide (x ∈ fx) then Some fin
    else
      fr ← final_removed fin !! example_idx;
      r ← b_removed_indices bs !! i;
      Some (Finals (<[example_idx := fx ++ [x]]> (final_xs fin))
                   (<[example_idx := fr ++ [r]]> (final_removed fin))
                   (final_length fin))
  else Some fin.

(** [for i in range(start, start + n_beams[example_idx])] *)
Fixpoint beams_loop (example_idx : nat) (ixs : list nat)
    (fin : finals) (remained_indices : list nat) (cnt : nat)
    : option (finals * list nat * nat) :=
  match ixs with
  | [] => Some (fin, remained_indices, cnt)
  | i :: ixs' =>
    y ← ys !! i;
    y0 ← ys_0 !! example_idx;
    if decide (y = y0) then
      x ← b_xs bs !! i;
      fin' ← record example_idx i x fin;
      if decide (length x = 1)%nat then
        beams_loop example_idx ixs' fin' remained_indices cnt
      else
        beams_loop example_idx ixs' fin' (remained_indices ++ [i]) (cnt + 1)%nat
    else beams_loop example_idx ixs' fin remained_indices cnt
  end.

(** [for example_idx in range(n_examples)] *)
Fixpoint examples_loop (examples : list nat) (start : nat)
    (fin : finals) (remained_indices : list nat) (new_n_beams : list nat)
    : option (finals * list nat * list nat) :=
  match examples with
  | [] => Some (fin, remained_indices, new_n_beams)
  | example_idx :: examples' =>
    nb ← b_n_beams bs !! example_idx;
    if decide (nb = 0)%nat then
      examples_loop examples' start fin remained_indices
                    (new_n_beams ++ [0%nat])
    else
      r ← beams_loop example_idx (seq start nb) fin remained_indices 0;
      examples_loop examples' (start + nb) r.1.1 r.1.2 (new_n_beams ++ [r.2])
  end.
End bookkeeping.

(** One pass through the body of [while True]: either the loop breaks
    with the final results, or it continues with the next round state. *)
Definition round (n_examples : nat) (bs : beams) (fin : finals)
    : option (finals + beams * finals) :=
  bs1 ← remove_one bs max_beam_size;
  let ys := predict <$> b_xs bs1 in
  r ← examples_loop bs1 ys (seq 0 n_examples) 0 fin [] [];
  let '(fin', remained_indices, new_n_beams) := r in
  if decide (length remained_indices = 0)%nat then Some (inl fin')
  else
    xs' ← gather (b_xs bs1) remained_indices;
    indices' ← gather (b_indices bs1) remained_indices;
    removed' ← gather (b_removed_indices bs1) remained_indices;
    Some (inr (Beams xs' new_n_beams indices' removed', fin')).
End rounds.

(** What a call of [get_rawr] can do: return its two lists (after so many
    rounds), raise an [IndexError], or still be running when the fuel that
    bounds the number of rounds is used up. *)
Inductive outcome :=
  | Returned (rounds : nat)
             (final_xs : list (list (list token)))
             (final_removed : list (list (list nat)))
  | Raised
  | OutOfFuel.

Section get_rawr.
Context `{M : Model}.

Definition initial_beams (xs : list (list token)) : beams :=
  Beams xs ((λ _, 1%nat) <$> xs) ((λ x, seq 0 (length x)) <$> xs)
        ((λ _, []) <$> xs).

Definition initial_finals (xs : list (list token)) : finals :=
  Finals ((λ x, [x]) <$> xs) ((λ _, [[]]) <$> xs) (length <$> xs).

Fixpoint search (ys_0 : list label) (max_beam_size n_examples : nat)
    (fuel rounds : nat) (bs : beams) (fin : finals) : outcome :=
  match fuel with
  | O => OutOfFuel
  | S fuel' =>
    match round ys_0 max_beam_size n_examples bs fin with
    | None => Raised
    | Some (inl fin') =>
      Returned (S rounds) (final_xs fin') (final_removed fin')
    | Some (inr (bs', fin')) =>
      search ys_0 max_beam_size n_examples fuel' (S rounds) bs' fin'
    end
  end.

Definition get_rawr (fuel : nat) (xs : list (list token))
    (max_beam_size : nat) : outcome :=
  search (predict <$> xs) max_beam_size (length xs) fuel 0
         (initial_beams xs) (initial_finals xs).
End get_rawr.

(** ** A stable sort is a sort *)

Section sorted.
Context {A : Type} (key : A → Z).

Lemma insert_by_perm a l : insert_by key a l ≡ₚ a :: l.
Proof.
  induction l as [|b l IH]; simpl; [done|].
  case_decide; [done|]. rewrite IH. apply Permutation_swap.
Qed.

Lemma sorted_perm l : sorted key l ≡ₚ l.
Proof.
  induction l as [|a l IH]; simpl; [done|].
  rewrite insert_by_perm. by f_equiv.
Qed.

Lemma length_sorted l : length (sorted key l) = length l.
Proof. by rewrite sorted_perm. Qed.

Lemma insert_by_Sorted a l :
  Sorted Z.le (key <$> l) → Sorted Z.le (key <$> insert_by key a l).
Proof.
  induction l as [|b l IH]; simpl; intros Hs.
  - by repeat constructor.
  - case_decide; simpl.
    + constructor; [done|]. by constructor.
    + apply Sorted_inv in Hs as [Hs Hb]. constructor; [by apply IH|].
      destruct l as [|c l]; simpl in *.
      * constructor. lia.
      * apply HdRel_inv in Hb. case_decide; constructor; lia.
Qed.

Lemma sorted_Sorted l : Sorted Z.le (key <$> sorted key l).
Proof.
  induction l as [|a l IH]; simpl; [constructor|].
  by apply insert_by_Sorted.
Qed.
End sorted.

(** ** A reference backend

    [stable_argsort] ranks positions by ascending score and keeps equal
    scores in position order.  Any prediction and saliency function,
    together with it, is a [Model]. *)

Definition stable_argsort (l : list score) : list nat :=
  sorted (λ j, l !!! j) (seq 0 (length l)).

Definition stable_model (p : list token → label)
    (s : list token → nat → score) : Model :=
  {| predict := p;
     saliency := s;
     argsort := stable_argsort;
     argsort_perm l := sorted_perm _ _;
     argsort_sorted l := sorted_Sorted _ _ |}.

(** The model of the scenarios: the class is 1 exactly when token 17 is
    present, and the saliency of a token is its id. *)
Definition keyword_model : Model :=
  stable_model (λ x, if decide (17 ∈ x) then 1 else 0)
               (λ x j, x !!! j).

(** ** Beams grouped by example

    The flat lists of a round state are the concatenation of one group
    of beams per example; [n_beams] holds the sizes of the groups. *)

Record beam := Beam {
  beam_x : list token;
  beam_indices : list nat;
  beam_removed : list nat
}.

Definition flat (groups : list (list beam)) : beams :=
  Beams (beam_x <$> concat groups) (length <$> groups)
        (beam_indices <$> concat groups) (beam_removed <$> concat groups).

(** The beam obtained from [b] by deleting position [j]. *)
Definition child_of (b : beam) (j : nat) : option beam :=
  p ← beam_indices b !! j;
  Some (Beam (remove_at j (beam_x b)) (remove_at j (beam_indices b))
             (beam_removed b ++ [p])).

(** The positions of the sequence [x] that a round may delete: the
    first [max_beam_size] of the ascending ranking of all positions but
    the last. *)
Definition tried `{M : Model} (max_beam_size : nat) (x : list token)
    : list nat :=
  take max_beam_size
       (argsort (take (length x - 1) (saliency x <$> seq 0 (length x)))).

Lemma tried_lt `{M : Model} max_beam_size x j :
  j ∈ tried max_beam_size x → (S j < length x)%nat.
Proof.
  intros Hj. apply elem_of_take in Hj as (n & Hj & _).
  apply list_elem_of_lookup_2 in Hj.
  rewrite argsort_perm in Hj. apply elem_of_seq in Hj.
  rewrite length_take, length_fmap, length_seq in Hj. lia.
Qed.

(** [g'] is what one round makes of the group [g]: at most
    [max_beam_size] beams, each a beam of [g] with one of its tried
    positions, never the last, deleted. *)
Definition expands `{M : Model} (max_beam_size : nat) (g g' : list beam)
    : Prop :=
  (length g' ≤ max_beam_size)%nat ∧
  Forall (λ b', ∃ b j, b ∈ g ∧ j ∈ tried max_beam_size (beam_x b) ∧
                       (S j < length (beam_x b))%nat ∧
                       child_of b j = Some b') g'.

Definition aligned (b : beam) : Prop :=
  length (beam_indices b) = length (beam_x b).

Lemma mapM_Forall_Some {A B} (f : A → option B) (g : A → B) l :
  Forall (λ a, f a = Some (g a)) l → mapM f l = Some (g <$> l).
Proof.
  intros H. apply mapM_Some_2. apply Forall2_fmap_r, Forall_Forall2_diag.
  done.
Qed.

Lemma lookup_concat_middle {A} (pre : list (list A)) g post k :
  (k < length g)%nat →
  concat (pre ++ g :: post) !! (length (concat pre) + k)%nat = g !! k.
Proof.
  intros Hk. rewrite concat_app, lookup_app_r by lia.
  replace (length (concat pre) + k - length (concat pre))%nat with k by lia.
  simpl. by rewrite lookup_app_l.
Qed.

Section remove_one_spec.
Context `{M : Model}.
Context (max_beam_size : nat).

Lemma beam_coordinates_spec xs i x :
  xs !! i = Some x →
  ∃ cs, beam_coordinates xs max_beam_size i = Some cs ∧
        Forall (λ c : coordinate, c.2.1 = i ∧ (S c.2.2 < length x)%nat ∧
                                  c.2.2 ∈ tried max_beam_size x ∧
                                  c.1 = saliency x c.2.2) cs.
Proof.
  intros Hx. unfold beam_coordinates, order, onehot_grad, get_onehot_grad.
  rewrite !list_lookup_fmap, Hx. simpl.
  rewrite length_fmap, length_seq. fold (tried max_beam_size x).
  exists ((λ j, (saliency x j, (i, j))) <$> tried max_beam_size x). split.
  - apply mapM_Forall_Some, Forall_forall. intros j Hj%tried_lt.
    rewrite list_lookup_fmap, lookup_seq_lt by lia. done.
  - apply Forall_fmap, Forall_forall. intros j Hj. simpl.
    split; [done|]. split; [by eapply tried_lt|done].
Qed.

Lemma example_coordinates_spec pre g post :
  ∃ cs, example_coordinates (beam_x <$> concat (pre ++ g :: post))
          max_beam_size (length (concat pre)) (length g) = Some cs ∧
        Forall (λ c : coordinate, ∃ k b,
                  c.2.1 = (length (concat pre) + k)%nat ∧ g !! k = Some b ∧
                  (S c.2.2 < length (beam_x b))%nat ∧
                  c.2.2 ∈ tried max_beam_size (beam_x b)) cs.
Proof.
  unfold example_coordinates.
  set (xs := beam_x <$> concat (pre ++ g :: post)).
  set (start := length (concat pre)).
  assert (H : ∀ k b, g !! k = Some b →
                     xs !! (start + k)%nat = Some (beam_x b)).
  { intros k b Hk. unfold xs, start.
    rewrite list_lookup_fmap, lookup_concat_middle, Hk; [done|].
    by eapply lookup_lt_Some. }
  assert (Hall : ∃ css, mapM (beam_coordinates xs max_beam_size)
                          (seq start (length g)) = Some css ∧
            Forall (Forall (λ c : coordinate, ∃ k b,
                  c.2.1 = (start + k)%nat ∧ g !! k = Some b ∧
                  (S c.2.2 < length (beam_x b))%nat ∧
                  c.2.2 ∈ tried max_beam_size (beam_x b))) css).
  { assert (Hs : Forall (λ i, ∃ k b, i = (start + k)%nat ∧ g !! k = Some b)
                        (seq start (length g))).
    { apply Forall_forall. intros i Hi%elem_of_seq.
      destruct (lookup_lt_is_Some_2 g (i - start)) as [b Hb]; [lia|].
      exists (i - start)%nat, b. split; [lia|done]. }
    induction Hs as [|i is_ (k & b & -> & Hb) _ IH]; simpl.
    - by exists [].
    - destruct (beam_coordinates_spec xs _ _ (H _ _ Hb)) as (cs & -> & Hcs).
      destruct IH as (css & -> & Hcss). simpl. exists (cs :: css).
      split; [done|]. constructor; [|done].
      eapply Forall_impl; [exact Hcs|]. intros c (? & ? & ? & _).
      exists k, b. done. }
  destruct Hall as (css & -> & Hcss). simpl. eexists; split; [done|].
  by apply Forall_concat.
Qed.

Lemma child_spec pre g post k b j :
  Forall aligned g → g !! k = Some b → (S j < length (beam_x b))%nat →
  ∃ b', child_of b j = Some b' ∧
    child (beam_x <$> concat (pre ++ g :: post))
          (beam_indices <$> concat (pre ++ g :: post))
          (beam_removed <$> concat (pre ++ g :: post))
          ((length (concat pre) + k)%nat, j)
    = Some (beam_x b', beam_indices b', beam_removed b').
Proof.
  intros Hal Hk Hj. unfold child, child_of. simpl.
  rewrite !list_lookup_fmap, lookup_concat_middle, Hk
    by (by eapply lookup_lt_Some).
  simpl. assert (Hb : aligned b).
  { eapply Forall_forall in Hal; [done|]. by eapply list_elem_of_lookup_2. }
  destruct (lookup_lt_is_Some_2 (beam_indices b) j) as [p Hp].
  { rewrite Hb. lia. }
  rewrite Hp. simpl. by eexists.
Qed.
End remove_one_spec.

Definition triple (b : beam) : list token * list nat * list nat :=
  (beam_x b, beam_indices b, beam_removed b).

Lemma flat_snoc acc g :
  flat (acc ++ [g]) =
  Beams (b_xs (flat acc) ++ (triple <$> g).*1.*1)
        (b_n_beams (flat acc) ++ [length g])
        (b_indices (flat acc) ++ (triple <$> g).*1.*2)
        (b_removed_indices (flat acc) ++ (triple <$> g).*2).
Proof.
  unfold flat. simpl.
  rewrite concat_app, !fmap_app. simpl. rewrite app_nil_r.
  by rewrite <- !list_fmap_compose.
Qed.

Lemma flat_snoc_nil acc :
  flat (acc ++ [[]]) =
  Beams (b_xs (flat acc)) (b_n_beams (flat acc) ++ [0%nat])
        (b_indices (flat acc)) (b_removed_indices (flat acc)).
Proof. rewrite flat_snoc. simpl. by rewrite !app_nil_r. Qed.

Section remove_one_loop_spec.
Context `{M : Model}.
Context (max_beam_size : nat).

Lemma children_spec pre g post (coords : list (nat * nat)) :
  Forall aligned g →
  Forall (λ c, ∃ k b, c.1 = (length (concat pre) + k)%nat ∧
                      g !! k = Some b ∧ (S c.2 < length (beam_x b))%nat ∧
                      c.2 ∈ tried max_beam_size (beam_x b))
         coords →
  ∃ g', mapM (child (beam_x <$> concat (pre ++ g :: post))
                    (beam_indices <$> concat (pre ++ g :: post))
                    (beam_removed <$> concat (pre ++ g :: post))) coords
        = Some (triple <$> g') ∧
        length g' = length coords ∧
        Forall (λ b', ∃ b j, b ∈ g ∧
                             j ∈ tried max_beam_size (beam_x b) ∧
                             (S j < length (beam_x b))%nat ∧
                             child_of b j = Some b') g'.
Proof.
  intros Hal.
  induction 1 as [|[i j] coords (k & b & Hi & Hk & Hj & Ht) _ IH].
  - by exists [].
  - simpl in Hi, Hj, Ht. subst i.
    destruct (child_spec pre g post k b j Hal Hk Hj) as (b' & Hb' & Hc).
    destruct IH as (g' & Hg' & Hlen & Hall).
    exists (b' :: g'). simpl. rewrite Hc, Hg'. simpl.
    split; [done|]. split; [by rewrite Hlen|].
    constructor; [|done]. exists b, j.
    split; [by eapply list_elem_of_lookup_2|done].
Qed.

Lemma remove_one_loop_spec all :
  Forall (Forall aligned) all →
  ∀ gs pre acc, all = pre ++ gs →
  ∃ gs',
    remove_one_loop (beam_x <$> concat all) (beam_indices <$> concat all)
      (beam_removed <$> concat all) max_beam_size
      (length <$> gs) (length (concat pre)) (flat acc)
    = Some (flat (acc ++ gs')) ∧
    Forall2 (expands max_beam_size) gs gs'.
Proof.
  intros Hal gs. induction gs as [|g gs IH]; intros pre acc ->.
  - exists []. simpl. by rewrite app_nil_r.
  - rewrite fmap_cons. cbn [remove_one_loop]. case_decide as Hg.
    + apply nil_length_inv in Hg. subst g.
      destruct (IH (pre ++ [[]]) (acc ++ [[]])) as (gs' & Hgs' & HF).
      { by rewrite <- app_assoc. }
      exists ([] :: gs'). rewrite <- flat_snoc_nil.
      replace (length (concat (pre ++ [[]]))) with (length (concat pre))
        in Hgs' by (by rewrite concat_app, length_app).
      rewrite <- app_assoc in Hgs'. simpl in Hgs'.
      split; [done|]. constructor; [|done]. split; simpl; [lia|constructor].
    + destruct (example_coordinates_spec max_beam_size pre g gs)
        as (cs & -> & Hcs). cbn [mbind option_bind].
      assert (Hpre : (length (concat pre) + length g)%nat
                     = length (concat (pre ++ [g]))).
      { rewrite concat_app, length_app. simpl. by rewrite app_nil_r. }
      case_decide as Hempty.
      * destruct (IH (pre ++ [g]) (acc ++ [[]])) as (gs' & Hgs' & HF).
        { by rewrite <- app_assoc. }
        exists ([] :: gs'). rewrite <- flat_snoc_nil, Hpre.
        rewrite <- app_assoc in Hgs'. simpl in Hgs'.
        split; [done|]. constructor; [|done]. split; simpl; [lia|constructor].
      * set (coords := take max_beam_size
               ((sorted (λ c : coordinate, - c.1) cs).*2)).
        assert (Hcoords : Forall (λ c : nat * nat, ∃ k b,
                   c.1 = (length (concat pre) + k)%nat ∧ g !! k = Some b ∧
                   (S c.2 < length (beam_x b))%nat ∧
                   c.2 ∈ tried max_beam_size (beam_x b)) coords).
        { apply Forall_forall. intros c Hc. unfold coords in Hc.
          apply elem_of_take in Hc as (n & Hc & _).
          apply list_elem_of_lookup_2, list_elem_of_fmap in Hc
            as (c' & -> & Hc').
          rewrite sorted_perm in Hc'.
          by eapply Forall_forall in Hcs. }
        apply Forall_app in Hal as [_ Hg'].
        apply Forall_cons in Hg' as [Hg' _].
        destruct (children_spec pre g gs coords Hg' Hcoords)
          as (g' & -> & Hlen & Hchildren). cbn [mbind option_bind].
        destruct (IH (pre ++ [g]) (acc ++ [g'])) as (gs' & Hgs' & HF).
        { by rewrite <- app_assoc. }
        exists (g' :: gs'). rewrite <- Hlen, <- flat_snoc, Hpre.
        rewrite <- app_assoc in Hgs'. simpl in Hgs'.
        split; [done|]. constructor; [|done]. split; [|done].
        rewrite Hlen. unfold coords. rewrite length_take. lia.
Qed.

(** [remove_one] on grouped beams: it never raises, and it answers
    with grouped beams again, one group per example. *)
Lemma remove_one_flat gs :
  Forall (Forall aligned) gs →
  ∃ gs', remove_one (flat gs) max_beam_size = Some (flat gs') ∧
         Forall2 (expands max_beam_size) gs gs'.
Proof.
  intros Hal.
  destruct (remove_one_loop_spec gs Hal gs [] [] eq_refl) as (gs' & H & HF).
  by exists gs'.
Qed.
End remove_one_loop_spec.

(** ** The bookkeeping of a round, example by example *)

(** All that [get_rawr] holds about one example: the original sequence,
    the live beams, and the best reductions recorded so far. *)
Record example := Example {
  ex_x0 : list token;
  ex_beams : list beam;
  ex_final_xs : list (list token);
  ex_final_removed : list (list nat);
  ex_final_length : nat
}.

Definition beams_of (exs : list example) : beams := flat (ex_beams <$> exs).

Definition finals_of (exs : list example) : finals :=
  Finals (ex_final_xs <$> exs) (ex_final_removed <$> exs)
         (ex_final_length <$> exs).

Definition with_beams (e : example) (g : list beam) : example :=
  Example (ex_x0 e) g (ex_final_xs e) (ex_final_removed e) (ex_final_length e).

Section book.
Context `{M : Model}.

Definition record_ex (b : beam) (e : example) : example :=
  if decide (length (beam_x b) < ex_final_length e)%nat then
    Example (ex_x0 e) (ex_beams e) [beam_x b] [beam_removed b]
            (length (beam_x b))
  else if decide (length (beam_x b) = ex_final_length e) then
    if decide (beam_x b ∈ ex_final_xs e) then e
    else Example (ex_x0 e) (ex_beams e) (ex_final_xs e ++ [beam_x b])
                 (ex_final_removed e ++ [beam_removed b])
                 (ex_final_length e)
  else e.

Definition visit_ex (y0 : label) (e : example) (b : beam) : example :=
  if decide (predict (beam_x b) = y0) then record_ex b e else e.

Definition survives (y0 : label) (b : beam) : Prop :=
  predict (beam_x b) = y0 ∧ length (beam_x b) ≠ 1%nat.

Global Instance survives_dec y0 b : Decision (survives y0 b).
Proof. unfold survives. apply _. Defined.

(** One example after the bookkeeping of a round whose candidates are
    [ex_beams e]. *)
Definition book (e : example) : example :=
  let y0 := predict (ex_x0 e) in
  with_beams (foldl (visit_ex y0) e (ex_beams e))
             (filter (survives y0) (ex_beams e)).

Fixpoint survivors_ix (y0 : label) (start : nat) (g : list beam) : list nat :=
  match g with
  | [] => []
  | b :: g' =>
    if decide (survives y0 b) then start :: survivors_ix y0 (S start) g'
    else survivors_ix y0 (S start) g'
  end.

Fixpoint remained_of (start : nat) (exs : list example) : list nat :=
  match exs with
  | [] => []
  | e :: exs' =>
    survivors_ix (predict (ex_x0 e)) start (ex_beams e)
    ++ remained_of (start + length (ex_beams e)) exs'
  end.

Lemma visit_ex_x0 y0 e b : ex_x0 (visit_ex y0 e b) = ex_x0 e.
Proof.
  unfold visit_ex, record_ex. by repeat (case_decide; simpl).
Qed.

Lemma foldl_visit_ex_x0 y0 g e : ex_x0 (foldl (visit_ex y0) e g) = ex_x0 e.
Proof.
  revert e. induction g as [|b g IH]; intros e; simpl; [done|].
  by rewrite IH, visit_ex_x0.
Qed.

Lemma finals_of_insert exs i e e' :
  ex_final_xs e' = ex_final_xs e →
  ex_final_removed e' = ex_final_removed e →
  ex_final_length e' = ex_final_length e →
  finals_of (<[i:=e']> exs) = finals_of (<[i:=e]> exs).
Proof.
  intros H1 H2 H3. unfold finals_of.
  by rewrite !list_fmap_insert, H1, H2, H3.
Qed.

Lemma record_spec groups exs eidx i b e :
  concat groups !! i = Some b → exs !! eidx = Some e →
  record (flat groups) eidx i (beam_x b) (finals_of exs)
  = Some (finals_of (<[eidx := record_ex b e]> exs)).
Proof.
  intros Hb He. unfold record, record_ex, assign. simpl.
  assert (Hlt : (eidx < length exs)%nat) by (by eapply lookup_lt_Some).
  rewrite !list_lookup_fmap, He, Hb, !length_fmap. simpl.
  repeat case_decide; try lia; simpl; try done.
  - unfold finals_of. by rewrite !list_fmap_insert.
  - by rewrite list_insert_id.
  - unfold finals_of. rewrite !list_fmap_insert. simpl.
    by rewrite (list_insert_id (ex_final_length <$> exs))
      by (by rewrite list_lookup_fmap, He).
  - by rewrite list_insert_id.
Qed.
End book.

Section loops_spec.
Context `{M : Model}.

Lemma beams_loop_spec ys_0 groups pre g post eidx y0 :
  groups = pre ++ g :: post → ys_0 !! eidx = Some y0 →
  ∀ g2 g1 start exs e remained cnt,
    g = g1 ++ g2 → start = (length (concat pre) + length g1)%nat →
    exs !! eidx = Some e →
    beams_loop ys_0 (flat groups) (predict <$> b_xs (flat groups)) eidx
      (seq start (length g2)) (finals_of exs) remained cnt
    = Some (finals_of (<[eidx := foldl (visit_ex y0) e g2]> exs),
            remained ++ survivors_ix y0 start g2,
            (cnt + length (filter (survives y0) g2))%nat).
Proof.
  intros -> Hy0 g2.
  induction g2 as [|b g2 IH]; intros g1 start exs e remained cnt -> -> He.
  - simpl. by rewrite list_insert_id, app_nil_r, Nat.add_0_r.
  - assert (Hb : concat (pre ++ (g1 ++ b :: g2) :: post)
                   !! (length (concat pre) + length g1)%nat = Some b).
    { rewrite lookup_concat_middle by (rewrite length_app; simpl; lia).
      by rewrite list_lookup_middle. }
    assert (Hxs : b_xs (flat (pre ++ (g1 ++ b :: g2) :: post))
                    !! (length (concat pre) + length g1)%nat
                  = Some (beam_x b)).
    { unfold flat. cbn [b_xs]. by rewrite list_lookup_fmap, Hb. }
    assert (Hnext : S (length (concat pre) + length g1)
                    = (length (concat pre) + length (g1 ++ [b]))%nat).
    { rewrite length_app. simpl. lia. }
    assert (Hg : g1 ++ b :: g2 = (g1 ++ [b]) ++ g2)
      by (by rewrite <- app_assoc).
    assert (Hins : ∀ e', <[eidx:=e']> exs !! eidx = Some e').
    { intros e'. apply list_lookup_insert_eq. by eapply lookup_lt_Some. }
    cbn [length seq beams_loop].
    rewrite list_lookup_fmap, Hxs, Hy0.
    cbn [fmap option_fmap option_map mbind option_bind].
    case_decide as Hy.
    + rewrite (record_spec _ _ _ _ _ _ Hb He). cbn [mbind option_bind].
      replace (record_ex b e) with (visit_ex y0 e b)
        by (unfold visit_ex; by rewrite decide_True).
      case_decide as Hone.
      * rewrite (IH (g1 ++ [b]) _ _ _ _ _ Hg Hnext (Hins _)).
        rewrite list_insert_insert_eq. cbn [foldl survivors_ix].
        rewrite (decide_False (P:=survives y0 b)) by (unfold survives; tauto).
        rewrite filter_cons_False by (unfold survives; tauto). done.
      * rewrite (IH (g1 ++ [b]) _ _ _ _ _ Hg Hnext (Hins _)).
        rewrite list_insert_insert_eq. cbn [foldl survivors_ix].
        rewrite (decide_True (P:=survives y0 b)) by done.
        rewrite filter_cons_True by done. cbn [length].
        rewrite <- app_assoc. simpl. do 2 f_equal. lia.
    + rewrite (IH (g1 ++ [b]) _ _ _ _ _ Hg Hnext He).
      cbn [foldl survivors_ix].
      replace (visit_ex y0 e b) with e
        by (unfold visit_ex; by rewrite decide_False).
      rewrite (decide_False (P:=survives y0 b)) by (unfold survives; tauto).
      rewrite filter_cons_False by (unfold survives; tauto). done.
Qed.

Lemma finals_of_middle_eq l e e' r :
  ex_final_xs e' = ex_final_xs e →
  ex_final_removed e' = ex_final_removed e →
  ex_final_length e' = ex_final_length e →
  finals_of (l ++ e' :: r) = finals_of (l ++ e :: r).
Proof.
  intros H1 H2 H3. unfold finals_of.
  by rewrite !fmap_app, !fmap_cons, H1, H2, H3.
Qed.

Lemma length_concat_snoc {A} (l : list (list A)) g :
  length (concat (l ++ [g])) = (length (concat l) + length g)%nat.
Proof. rewrite concat_app, length_app. simpl. by rewrite app_nil_r. Qed.

Lemma examples_loop_spec all :
  ∀ rest done done' remained nnb,
    all = done ++ rest → length done' = length done →
    examples_loop ((predict ∘ ex_x0) <$> all) (beams_of all)
      (predict <$> b_xs (beams_of all))
      (seq (length done) (length rest))
      (length (concat (ex_beams <$> done)))
      (finals_of (done' ++ rest)) remained nnb
    = Some (finals_of (done' ++ (book <$> rest)),
            remained ++ remained_of (length (concat (ex_beams <$> done))) rest,
            nnb ++ ((length ∘ ex_beams ∘ book) <$> rest)).
Proof.
  intros rest. induction rest as [|e rest IH];
    intros done done' remained nnb -> Hlen.
  - simpl. by rewrite !app_nil_r.
  - cbn [length seq examples_loop].
    assert (Hnb : b_n_beams (beams_of (done ++ e :: rest)) !! length done
                  = Some (length (ex_beams e))).
    { unfold beams_of, flat. cbn [b_n_beams].
      by rewrite !list_lookup_fmap, list_lookup_middle. }
    rewrite Hnb. cbn [mbind option_bind].
    assert (Hdone : done ++ e :: rest = (done ++ [e]) ++ rest)
      by (by rewrite <- app_assoc).
    assert (Hlen' : length (done' ++ [book e]) = length (done ++ [e]))
      by (rewrite !length_app; simpl; lia).
    assert (HS : S (length done) = length (done ++ [e]))
      by (rewrite length_app; simpl; lia).
    assert (Hstart : (length (concat (ex_beams <$> done))
                      + length (ex_beams e))%nat
                     = length (concat (ex_beams <$> (done ++ [e])))).
    { rewrite fmap_app. cbn [fmap list_fmap]. by rewrite length_concat_snoc. }
    case_decide as Hz.
    + apply nil_length_inv in Hz.
      rewrite (finals_of_middle_eq done' (book e) e rest)
        by (unfold book; by rewrite Hz).
      replace (length (concat (ex_beams <$> done)))
        with (length (concat (ex_beams <$> (done ++ [e])))) at 1
        by (rewrite <- Hstart, Hz; simpl; lia).
      rewrite HS, (cons_middle (book e) done' rest), app_assoc.
      rewrite (IH (done ++ [e]) (done' ++ [book e]) _ _ Hdone Hlen').
      rewrite <- !app_assoc. cbn [remained_of fmap list_fmap].
      assert (Hzero : (length ∘ ex_beams ∘ book) e = 0%nat)
        by (unfold compose, book; by rewrite Hz).
      rewrite Hzero, Hz, <- Hstart, Hz. simpl. by rewrite Nat.add_0_r.
    + pose proof (beams_loop_spec ((predict ∘ ex_x0) <$> (done ++ e :: rest))
        (ex_beams <$> (done ++ e :: rest)) (ex_beams <$> done) (ex_beams e)
        (ex_beams <$> rest) (length done) (predict (ex_x0 e))) as Hloop.
      rewrite fmap_app, fmap_cons in Hloop.
      specialize (Hloop eq_refl).
      rewrite <- fmap_cons, <- fmap_app in Hloop.
      specialize (Hloop ltac:(by rewrite list_lookup_fmap, list_lookup_middle)).
      specialize (Hloop (ex_beams e) [] (length (concat (ex_beams <$> done)))
        (done' ++ e :: rest) e remained 0%nat eq_refl ltac:(simpl; lia)
        ltac:(by rewrite list_lookup_middle)).
      change (flat (ex_beams <$> done ++ e :: rest))
        with (beams_of (done ++ e :: rest)) in Hloop.
      rewrite Hloop. cbn [mbind option_bind fst snd].
      rewrite <- Hlen, insert_app_r_alt, Nat.sub_diag by lia. simpl insert.
      rewrite (finals_of_middle_eq done' (book e)
                 (foldl (visit_ex (predict (ex_x0 e))) e (ex_beams e)) rest)
        by done.
      rewrite Hlen, Hstart, HS, (cons_middle (book e) done' rest), app_assoc.
      rewrite (IH (done ++ [e]) (done' ++ [book e]) _ _ Hdone Hlen').
      rewrite <- !app_assoc. cbn [remained_of fmap list_fmap].
      rewrite <- Hstart. done.
Qed.
End loops_spec.

(** One example across a call of [remove_one]: only its beams change. *)
Definition expanded `{M : Model} (max_beam_size : nat) (e e1 : example)
    : Prop :=
  ex_x0 e1 = ex_x0 e ∧ ex_final_xs e1 = ex_final_xs e ∧
  ex_final_removed e1 = ex_final_removed e ∧
  ex_final_length e1 = ex_final_length e ∧
  expands max_beam_size (ex_beams e) (ex_beams e1).

Section round_spec.
Context `{M : Model}.

Lemma gather_app {A} (l : list A) is1 is2 r1 r2 :
  gather l is1 = Some r1 → gather l is2 = Some r2 →
  gather l (is1 ++ is2) = Some (r1 ++ r2).
Proof.
  unfold gather. rewrite !mapM_Some. apply Forall2_app.
Qed.

Lemma gather_survivors {B} (f : beam → B) (L : list B) y0 g :
  ∀ start,
    (∀ k b, g !! k = Some b → L !! (start + k)%nat = Some (f b)) →
  gather L (survivors_ix y0 start g) = Some (f <$> filter (survives y0) g).
Proof.
  induction g as [|b g IH]; intros start H; [done|].
  assert (Hb : L !! start = Some (f b)).
  { rewrite <- (Nat.add_0_r start). by apply H. }
  assert (Hrec : gather L (survivors_ix y0 (S start) g)
                 = Some (f <$> filter (survives y0) g)).
  { apply IH. intros k b' Hk.
    replace (S start + k)%nat with (start + S k)%nat by lia. by apply H. }
  cbn [survivors_ix]. case_decide.
  - rewrite filter_cons_True by done. unfold gather in *.
    cbn [mapM]. rewrite Hb. cbn [mbind option_bind]. by rewrite Hrec.
  - by rewrite filter_cons_False.
Qed.

Lemma gather_remained {B} (f : beam → B) all :
  ∀ rest seen, all = seen ++ rest →
  gather (f <$> concat (ex_beams <$> all))
         (remained_of (length (concat (ex_beams <$> seen))) rest)
  = Some (f <$> concat (ex_beams <$> (book <$> rest))).
Proof.
  intros rest. induction rest as [|e rest IH]; intros seen ->; [done|].
  cbn [remained_of].
  replace (f <$> concat (ex_beams <$> (book <$> e :: rest)))
    with ((f <$> filter (survives (predict (ex_x0 e))) (ex_beams e))
          ++ (f <$> concat (ex_beams <$> (book <$> rest))))
    by (by rewrite <- fmap_app).
  apply gather_app.
  - apply gather_survivors. intros k b Hk.
    rewrite list_lookup_fmap, fmap_app, fmap_cons, lookup_concat_middle, Hk
      by (by eapply lookup_lt_Some).
    done.
  - specialize (IH (seen ++ [e])). rewrite <- app_assoc in IH.
    specialize (IH eq_refl).
    rewrite (fmap_app ex_beams seen [e]) in IH. cbn [fmap list_fmap] in IH.
    by rewrite length_concat_snoc in IH.
Qed.

Lemma regroup max_beam_size exs :
  ∀ gs', Forall2 (expands max_beam_size) (ex_beams <$> exs) gs' →
  ∃ exs1, ex_beams <$> exs1 = gs' ∧
          Forall2 (expanded max_beam_size) exs exs1.
Proof.
  induction exs as [|e exs IH]; intros gs' H.
  - apply Forall2_nil_inv_l in H as ->. by exists [].
  - rewrite fmap_cons in H.
    apply Forall2_cons_inv_l in H as (g' & gs'' & Hg & Hgs & ->).
    destruct (IH _ Hgs) as (exs1 & <- & HF).
    exists (with_beams e g' :: exs1). split; [done|].
    constructor; [|done]. unfold expanded. simpl. tauto.
Qed.

Lemma expanded_constants max_beam_size exs exs1 :
  Forall2 (expanded max_beam_size) exs exs1 →
  (predict ∘ ex_x0) <$> exs1 = (predict ∘ ex_x0) <$> exs ∧
  finals_of exs1 = finals_of exs.
Proof.
  induction 1 as [|e e1 exs exs1 (H0 & H1 & H2 & H3 & _) _ [IH1 IH2]];
    [done|].
  split.
  - rewrite !fmap_cons, IH1. unfold compose at 1 3. by rewrite H0.
  - unfold finals_of in *. rewrite !fmap_cons, H1, H2, H3.
    injection IH2 as -> -> ->. done.
Qed.

(** A whole round on grouped state: [remove_one] gives the candidates
    [exs1]; the search stops when no candidate of any example survives,
    and goes on with the survivors otherwise. *)
Lemma round_spec max_beam_size exs :
  Forall (λ e, Forall aligned (ex_beams e)) exs →
  ∃ exs1,
    Forall2 (expanded max_beam_size) exs exs1 ∧
    ((concat (ex_beams <$> (book <$> exs1)) = [] ∧
      round ((predict ∘ ex_x0) <$> exs) max_beam_size (length exs)
            (beams_of exs) (finals_of exs)
      = Some (inl (finals_of (book <$> exs1)))) ∨
     (concat (ex_beams <$> (book <$> exs1)) ≠ [] ∧
      round ((predict ∘ ex_x0) <$> exs) max_beam_size (length exs)
            (beams_of exs) (finals_of exs)
      = Some (inr (beams_of (book <$> exs1), finals_of (book <$> exs1))))).
Proof.
  intros Hal.
  destruct (remove_one_flat max_beam_size (ex_beams <$> exs))
    as (gs' & Hrem & HF).
  { by apply Forall_fmap. }
  destruct (regroup _ _ _ HF) as (exs1 & <- & Hexp).
  exists exs1. split; [done|].
  destruct (expanded_constants _ _ _ Hexp) as [Hys Hfin].
  assert (Hlen : length exs = length exs1) by (by eapply Forall2_length).
  unfold round, beams_of. rewrite Hrem. cbn [mbind option_bind].
  rewrite <- Hys, <- Hfin, Hlen.
  pose proof (examples_loop_spec exs1 exs1 [] [] [] [] eq_refl eq_refl)
    as Hloop.
  unfold beams_of in Hloop. cbn [length app concat fmap list_fmap] in Hloop.
  rewrite Hloop. cbn [mbind option_bind].
  pose proof (gather_remained beam_x exs1 exs1 [] eq_refl) as Gx.
  pose proof (gather_remained beam_indices exs1 exs1 [] eq_refl) as Gi.
  pose proof (gather_remained beam_removed exs1 exs1 [] eq_refl) as Gr.
  cbn [length app concat fmap list_fmap] in Gx, Gi, Gr.
  assert (Hrlen : length (remained_of 0 exs1)
                  = length (concat (ex_beams <$> (book <$> exs1)))).
  { apply length_mapM in Gx. by rewrite length_fmap in Gx. }
  case_decide as Hz.
  - left. split; [|done]. apply nil_length_inv. by rewrite <- Hrlen.
  - right. split.
    { intros Hnil. apply Hz. by rewrite Hrlen, Hnil. }
    unfold flat at 1 2 3. cbn [b_xs b_indices b_removed_indices].
    rewrite Gx, Gi, Gr. cbn [mbind option_bind].
    unfold flat. by rewrite <- !list_fmap_compose.
Qed.
End round_spec.

(** ** Beams as reductions of the original sequence *)

Section remove_at.
Context {A : Type}.
Implicit Types l : list A.

Lemma remove_at_delete j l : remove_at j l = delete j l.
Proof. unfold remove_at. by rewrite delete_take_drop. Qed.

Lemma remove_at_sublist j l : remove_at j l `sublist_of` l.
Proof. rewrite remove_at_delete. apply sublist_delete. Qed.

Lemma length_remove_at j l :
  (j < length l)%nat → S (length (remove_at j l)) = length l.
Proof.
  intros Hj. unfold remove_at.
  rewrite length_app, length_take, length_drop. lia.
Qed.

Lemma last_remove_at j l :
  (S j < length l)%nat → last (remove_at j l) = last l.
Proof.
  intros Hj. rewrite !last_lookup.
  pose proof (length_remove_at j l ltac:(lia)) as Hlen.
  rewrite remove_at_delete in *.
  rewrite list_lookup_delete_ge by lia. f_equal. lia.
Qed.

Lemma StronglySorted_sublist (R : relation A) l1 l2 :
  l1 `sublist_of` l2 → StronglySorted R l2 → StronglySorted R l1.
Proof.
  induction 1 as [|x l1 l2 Hsub IH|x l1 l2 Hsub IH]; intros Hs; [done| |].
  - apply StronglySorted_cons in Hs as [Hx Hs].
    apply StronglySorted_cons. split; [|by apply IH].
    apply Forall_forall. intros y Hy.
    eapply Forall_forall in Hx; [done|]. by eapply sublist_subseteq.
  - apply StronglySorted_cons in Hs as [_ Hs]. by apply IH.
Qed.
End remove_at.

Lemma StronglySorted_lt_seq a n : StronglySorted lt (seq a n).
Proof.
  revert a. induction n as [|n IH]; intros a; simpl; [constructor|].
  constructor; [apply IH|]. apply Forall_forall. intros y Hy%elem_of_seq. lia.
Qed.

(** [derived x0 b]: the beam [b] is the original sequence [x0] with the
    positions [beam_removed b] deleted; [beam_indices b] lists, in
    increasing order, the original positions of the tokens that remain. *)
Record derived (x0 : list token) (b : beam) : Prop := {
  d_tokens : Forall2 (λ t p, x0 !! p = Some t) (beam_x b) (beam_indices b);
  d_partition : beam_removed b ++ beam_indices b ≡ₚ seq 0 (length x0);
  d_sorted : StronglySorted lt (beam_indices b);
  d_sublist : beam_x b `sublist_of` x0;
  d_last : last (beam_x b) = last x0
}.

Lemma derived_aligned x0 b : derived x0 b → aligned b.
Proof.
  intros [H _ _ _ _]. unfold aligned. symmetry. by eapply Forall2_length.
Qed.

Lemma derived_initial x0 : derived x0 (Beam x0 (seq 0 (length x0)) []).
Proof.
  split; simpl; [|done|apply StronglySorted_lt_seq|done|done].
  apply Forall2_same_length_lookup_2; [by rewrite length_seq|].
  intros i t p Ht Hp. apply lookup_seq in Hp as [-> _]. done.
Qed.

Lemma derived_child x0 b j b' :
  derived x0 b → (S j < length (beam_x b))%nat → child_of b j = Some b' →
  derived x0 b' ∧ S (length (beam_x b')) = length (beam_x b).
Proof.
  intros [Ht Hp Hs Hsub Hl] Hj Hc. unfold child_of in Hc.
  destruct (beam_indices b !! j) as [p|] eqn:Hpj; [|done].
  simpl in Hc. injection Hc as <-. split; [split; simpl|simpl].
  - unfold remove_at. apply Forall2_app; [by apply Forall2_take|].
    by apply Forall2_drop.
  - rewrite <- Hp. unfold remove_at.
    rewrite <- (take_drop_middle (beam_indices b) j p Hpj) at 3.
    rewrite <- !app_assoc. f_equiv. simpl.
    by rewrite Permutation_middle.
  - eapply StronglySorted_sublist; [apply remove_at_sublist|done].
  - etrans; [apply remove_at_sublist|done].
  - by rewrite last_remove_at.
  - apply length_remove_at. lia.
Qed.

(** ** The invariant of the search, per example *)

Section invariant.
Context `{M : Model}.
Context (max_beam_size : nat).

(** No deletion of a single token other than the last keeps the
    prediction of [x0]. *)
Definition irreducible (x0 : list token) : Prop :=
  ∀ j, (S j < length x0)%nat → predict (remove_at j x0) ≠ predict x0.

(** No deletion that the first round tries on [x0] keeps its prediction:
    the search finds no reduction of [x0]. *)
Definition stuck (x0 : list token) : Prop :=
  ∀ j, j ∈ tried max_beam_size x0 →
       predict (remove_at j x0) ≠ predict x0.

Lemma irreducible_stuck x0 : irreducible x0 → stuck x0.
Proof. intros H j Hj%tried_lt. by apply H. Qed.

(** The original sequence as the only recorded result. *)
Definition seeded (e : example) : Prop :=
  ex_final_xs e = [ex_x0 e] ∧ ex_final_removed e = [[]] ∧
  ex_final_length e = length (ex_x0 e).

(** What holds of the recorded results of an example. *)
Record fin_inv (e : example) : Prop := {
  fin_recorded :
    Forall2 (λ x r, ∃ idx, derived (ex_x0 e) (Beam x idx r))
            (ex_final_xs e) (ex_final_removed e);
  fin_length : Forall (λ x, length x = ex_final_length e) (ex_final_xs e);
  fin_predict :
    Forall (λ x, predict x = predict (ex_x0 e)) (ex_final_xs e);
  fin_nodup : NoDup (ex_final_xs e);
  fin_nonempty : ex_final_xs e ≠ [];
  fin_seed : seeded e ∨ (ex_final_length e < length (ex_x0 e))%nat
}.

(** What holds of the live beams of an example after [k] rounds. *)
Definition live (k : nat) (x0 : list token) (b : beam) : Prop :=
  derived x0 b ∧ (length (beam_x b) + k = length x0)%nat ∧
  ((1 ≤ k)%nat →
   (2 ≤ length (beam_x b))%nat ∧ predict (beam_x b) = predict x0).

Record ex_inv (k : nat) (e : example) : Prop := {
  inv_live : Forall (live k (ex_x0 e)) (ex_beams e);
  inv_fin : fin_inv e;
  inv_first :
    k = 0%nat →
    ex_beams e = [Beam (ex_x0 e) (seq 0 (length (ex_x0 e))) []];
  inv_stuck :
    stuck (ex_x0 e) → seeded e ∧ (1 ≤ k → ex_beams e = [])%nat;
  inv_min :
    Forall (λ b, ex_final_length e ≤ length (beam_x b))%nat (ex_beams e)
}.

Definition initial_example (x : list token) : example :=
  Example x [Beam x (seq 0 (length x)) []] [x] [[]] (length x).

Lemma ex_inv_initial x : ex_inv 0 (initial_example x).
Proof.
  split; simpl.
  - constructor; [|done]. split; [apply derived_initial|]. simpl.
    split; [lia|]. intros ?. lia.
  - split; simpl.
    + constructor; [|done]. eexists. apply derived_initial.
    + by constructor.
    + by constructor.
    + apply NoDup_singleton.
    + done.
    + by left.
  - done.
  - intros _. split; [done|lia].
  - by constructor.
Qed.

(** The candidates of a round: one token shorter than their parents. *)
Definition candidate (k : nat) (x0 : list token) (b : beam) : Prop :=
  derived x0 b ∧ (length (beam_x b) + S k = length x0)%nat ∧
  (1 ≤ length (beam_x b))%nat ∧
  (k = 0%nat →
   ∃ j, j ∈ tried max_beam_size x0 ∧ beam_x b = remove_at j x0).

Lemma expands_candidates k e e1 :
  ex_inv k e → expanded max_beam_size e e1 →
  Forall (candidate k (ex_x0 e)) (ex_beams e1).
Proof.
  intros [Hlive _ Hfirst _ _] (_ & _ & _ & _ & _ & Hexp).
  eapply Forall_impl; [exact Hexp|]. simpl.
  intros b' (b & j & Hb & Ht & Hj & Hc).
  pose proof Hb as Hb0.
  eapply Forall_forall in Hb; [|exact Hlive].
  destruct Hb as (Hd & Hlen & _).
  destruct (derived_child _ _ _ _ Hd Hj Hc) as [Hd' Hlen'].
  split; [done|]. split; [lia|]. split; [lia|].
  intros ->. rewrite Hfirst in Hb0 by done.
  apply list_elem_of_singleton in Hb0 as ->. simpl in *.
  exists j. split; [done|]. unfold child_of in Hc. simpl in Hc.
  destruct (seq 0 (length (ex_x0 e)) !! j); [|done].
  by injection Hc as <-.
Qed.
End invariant.

Section preservation.
Context `{M : Model}.
Context (max_beam_size : nat).

Lemma fin_inv_ext e e' :
  ex_x0 e' = ex_x0 e → ex_final_xs e' = ex_final_xs e →
  ex_final_removed e' = ex_final_removed e →
  ex_final_length e' = ex_final_length e →
  fin_inv e → fin_inv e'.
Proof.
  intros H0 H1 H2 H3 [? ? ? ? ? ?].
  split; unfold seeded in *; rewrite ?H0, ?H1, ?H2, ?H3; done.
Qed.

Lemma record_fin_inv e b :
  fin_inv e → derived (ex_x0 e) b →
  (length (beam_x b) < length (ex_x0 e))%nat →
  predict (beam_x b) = predict (ex_x0 e) →
  fin_inv (record_ex b e).
Proof.
  intros [Hrec Hlen Hpred Hnd Hne Hseed] Hd Hshort Hp.
  destruct b as [x idx r]. destruct e as [x0 g fx fr fl].
  unfold record_ex, seeded in *. simpl in *.
  repeat case_decide; simpl.
  - split; simpl.
    + constructor; [|done]. by exists idx.
    + by constructor.
    + by constructor.
    + apply NoDup_singleton.
    + done.
    + by right.
  - by split.
  - split; simpl.
    + apply Forall2_app; [done|]. constructor; [|done]. by exists idx.
    + apply Forall_app. split; [done|]. by constructor.
    + apply Forall_app. split; [done|]. by constructor.
    + apply NoDup_app. split; [done|]. split; [|apply NoDup_singleton].
      intros y Hy Hx. apply list_elem_of_singleton in Hx as ->. done.
    + by intros [? _]%app_eq_nil.
    + right. destruct Hseed as [(_ & _ & ->)|?]; lia.
  - by split.
Qed.

Lemma foldl_visit_fin_inv k x0 g :
  ∀ e, ex_x0 e = x0 → fin_inv e →
       Forall (candidate max_beam_size k x0) g →
  fin_inv (foldl (visit_ex (predict x0)) e g).
Proof.
  induction g as [|b g IH]; intros e Hx0 Hfin Hg; [done|].
  apply Forall_cons in Hg as [(Hd & Hlen & _) Hg]. simpl.
  apply IH; [by rewrite visit_ex_x0| |done].
  unfold visit_ex. case_decide; [|done].
  apply record_fin_inv; rewrite ?Hx0; [done|done|lia|done].
Qed.

Lemma foldl_visit_stuck y0 g e :
  Forall (λ b, predict (beam_x b) ≠ y0) g →
  foldl (visit_ex y0) e g = e ∧ filter (survives y0) g = [].
Proof.
  induction 1 as [|b g Hb _ [IH1 IH2]]; [done|]. simpl.
  unfold visit_ex at 2. rewrite decide_False by done.
  rewrite filter_cons_False by (unfold survives; tauto). done.
Qed.

(** The recorded length never grows, and no candidate that keeps the
    prediction is shorter than it once visited. *)
Lemma visit_ex_length_le y0 e b :
  (ex_final_length (visit_ex y0 e b) ≤ ex_final_length e)%nat.
Proof.
  unfold visit_ex, record_ex. repeat (case_decide; simpl); lia.
Qed.

Lemma foldl_visit_length_le y0 g :
  ∀ e, (ex_final_length (foldl (visit_ex y0) e g) ≤ ex_final_length e)%nat.
Proof.
  induction g as [|b g IH]; intros e; simpl; [done|].
  etrans; [apply IH|apply visit_ex_length_le].
Qed.

Lemma foldl_visit_min y0 g :
  ∀ e, Forall (λ b, ex_final_length (foldl (visit_ex y0) e g)
                    ≤ length (beam_x b))%nat
              (filter (survives y0) g).
Proof.
  induction g as [|b g IH]; intros e; simpl; [constructor|].
  rewrite filter_cons. case_decide as Hs; [|apply IH].
  constructor; [|apply IH].
  etrans; [apply foldl_visit_length_le|].
  destruct Hs as [Hp _]. unfold visit_ex, record_ex.
  rewrite decide_True by done. repeat (case_decide; simpl); lia.
Qed.

Lemma expands_nil g' : expands max_beam_size [] g' → g' = [].
Proof.
  intros [_ H]. destruct g' as [|b' g']; [done|].
  apply Forall_cons in H as [(b & _ & Hb & _) _]. by apply elem_of_nil in Hb.
Qed.

(** The invariant goes from one round boundary to the next: [e1] is
    the example after [remove_one], [book e1] after the bookkeeping. *)
Lemma ex_inv_step k e e1 :
  ex_inv max_beam_size k e → expanded max_beam_size e e1 →
  ex_x0 (book e1) = ex_x0 e ∧ ex_inv max_beam_size (S k) (book e1).
Proof.
  intros Hinv Hexp.
  pose proof (expands_candidates _ _ _ _ Hinv Hexp) as Hcand.
  destruct Hexp as (H0 & H1 & H2 & H3 & Hexp).
  destruct Hinv as [Hlive Hfin Hfirst Hstuck Hmin].
  assert (Hx0 : ex_x0 (book e1) = ex_x0 e).
  { unfold book. simpl. by rewrite foldl_visit_ex_x0. }
  split; [done|]. split; rewrite ?Hx0.
  - unfold book. simpl. rewrite H0.
    apply Forall_forall. intros b [[Hp Hone] Hb]%list_elem_of_filter.
    eapply Forall_forall in Hb; [|exact Hcand].
    destruct Hb as (Hd & Hlen & Hpos & _).
    split; [done|]. split; [lia|]. intros _. split; [lia|done].
  - eapply (fin_inv_ext
              (foldl (visit_ex (predict (ex_x0 e))) e1 (ex_beams e1)));
      [by rewrite Hx0, foldl_visit_ex_x0|unfold book; by rewrite H0..|].
    eapply foldl_visit_fin_inv; [done| |done].
    by eapply fin_inv_ext.
  - done.
  - intros Hirr. destruct (Hstuck Hirr) as [Hseed Hnil].
    assert (Hno : Forall (λ b, predict (beam_x b) ≠ predict (ex_x0 e))
                         (ex_beams e1)).
    { destruct k as [|k].
      - eapply Forall_impl; [exact Hcand|]. simpl.
        intros b (_ & _ & _ & Hj). destruct (Hj eq_refl) as (j & Hj' & ->).
        by apply Hirr.
      - rewrite Hnil in Hexp by lia. apply expands_nil in Hexp as ->.
        constructor. }
    destruct (foldl_visit_stuck _ _ e1 Hno) as [Hfold Hfilter].
    unfold book, seeded in *. rewrite H0, Hfold, Hfilter. simpl.
    by rewrite H0, H1, H2, H3.
  - unfold book. simpl. apply foldl_visit_min.
Qed.
End preservation.

(** ** The search as a transition system *)

Definition state : Type := beams * finals.

Definition initial_state (xs : list (list token)) : state :=
  (initial_beams xs, initial_finals xs).

(** [step xs mbs s s']: from the round state [s], one pass through the
    loop body of [get_rawr xs mbs] does not break and leaves [s']. *)
Definition step `{M : Model} (xs : list (list token)) (max_beam_size : nat)
    (s s' : state) : Prop :=
  round (predict <$> xs) max_beam_size (length xs) s.1 s.2 = Some (inr s').

(** The longest original sequence, and the bound on the number of rounds. *)
Definition max_length (xs : list (list token)) : nat :=
  max_list (length <$> xs).

Definition rounds_bound (xs : list (list token)) : nat :=
  1 `max` (max_length xs - 1).

Lemma beams_of_initial xs :
  beams_of (initial_example <$> xs) = initial_beams xs.
Proof.
  induction xs as [|x l IH]; [done|].
  unfold beams_of, flat, initial_beams in *.
  injection IH as H1 H2 H3 H4.
  rewrite !fmap_cons. cbn [concat ex_beams initial_example app].
  rewrite !fmap_cons. cbn [beam_x beam_indices beam_removed].
  by rewrite H1, H2, H3, H4.
Qed.

Lemma finals_of_initial xs :
  finals_of (initial_example <$> xs) = initial_finals xs.
Proof.
  unfold finals_of, initial_finals. by rewrite <- !list_fmap_compose.
Qed.

Section search_spec.
Context `{M : Model}.
Context (xs : list (list token)) (max_beam_size : nat).

(** The round state [s], [k] rounds into the search of [xs], grouped
    by example. *)
Definition represents (k : nat) (exs : list example) (s : state) : Prop :=
  s = (beams_of exs, finals_of exs) ∧ ex_x0 <$> exs = xs ∧
  Forall (ex_inv max_beam_size k) exs.

Lemma represents_initial :
  represents 0 (initial_example <$> xs) (initial_state xs).
Proof.
  split; [|split].
  - unfold initial_state. by rewrite beams_of_initial, finals_of_initial.
  - rewrite <- list_fmap_compose. apply list_fmap_id.
  - apply Forall_fmap, Forall_forall. intros x _. apply ex_inv_initial.
Qed.

Lemma ys_0_represented exs :
  ex_x0 <$> exs = xs →
  predict <$> xs = (predict ∘ ex_x0) <$> exs ∧ length xs = length exs.
Proof. intros <-. by rewrite <- list_fmap_compose, length_fmap. Qed.

(** One round from a represented state: either the loop breaks, and no
    beam is left, or it goes on from a represented state with a beam. *)
Lemma round_represented k exs s :
  represents k exs s →
  ∃ exs', ex_x0 <$> exs' = xs ∧ Forall (ex_inv max_beam_size (S k)) exs' ∧
          Forall2 (λ e e', (ex_beams e = [] → ex_beams e' = []) ∧
                           (ex_final_length e' ≤ ex_final_length e)%nat)
                  exs exs' ∧
    ((concat (ex_beams <$> exs') = [] ∧
      round (predict <$> xs) max_beam_size (length xs) s.1 s.2
      = Some (inl (finals_of exs'))) ∨
     (concat (ex_beams <$> exs') ≠ [] ∧
      round (predict <$> xs) max_beam_size (length xs) s.1 s.2
      = Some (inr (beams_of exs', finals_of exs')))).
Proof.
  intros (-> & Hxs & Hinv).
  destruct (ys_0_represented _ Hxs) as [-> ->]. simpl.
  destruct (round_spec max_beam_size exs) as (exs1 & Hexp & Hround).
  { eapply Forall_impl; [exact Hinv|]. intros e [Hlive _ _ _ _].
    eapply Forall_impl; [exact Hlive|]. intros b [Hd _].
    by eapply derived_aligned. }
  exists (book <$> exs1).
  assert (Hstep : Forall2 (λ e e', ex_x0 e' = ex_x0 e ∧
                             ex_inv max_beam_size (S k) e' ∧
                             (ex_beams e = [] → ex_beams e' = []) ∧
                             (ex_final_length e' ≤ ex_final_length e)%nat)
                          exs (book <$> exs1)).
  { apply Forall2_fmap_r. clear Hround Hxs.
    induction Hexp as [|e e1 l l1 He1 _ IH]; [constructor|].
    apply Forall_cons in Hinv as [He Hinv].
    constructor; [|by apply IH].
    destruct (ex_inv_step _ _ _ _ He He1) as [? ?].
    destruct He1 as (_ & _ & _ & H3 & Hx).
    split; [done|]. split; [done|]. split.
    - intros Hnil. rewrite Hnil in Hx.
      apply expands_nil in Hx. unfold book. simpl. by rewrite Hx.
    - unfold book. simpl. rewrite <- H3. apply foldl_visit_length_le. }
  split; [|split; [|split; [|done]]].
  - rewrite <- Hxs. clear -Hstep.
    induction Hstep as [|e e' l l' (He & _) _ IH]; [done|].
    by rewrite !fmap_cons, He, IH.
  - clear -Hstep. induction Hstep as [|e e' l l' (_ & ? & _) _ IH];
      by constructor.
  - eapply Forall2_impl; [exact Hstep|]. simpl. tauto.
Qed.

(** A live beam after [S k] rounds has at least two tokens left of an
    original that lost [S k]. *)
Lemma live_bound k exs :
  ex_x0 <$> exs = xs → Forall (ex_inv max_beam_size (S k)) exs →
  concat (ex_beams <$> exs) ≠ [] → (k + 3 ≤ max_length xs)%nat.
Proof.
  intros Hxs Hinv Hne.
  destruct (concat (ex_beams <$> exs)) as [|b l] eqn:Hc; [done|].
  assert (Hb : b ∈ concat (ex_beams <$> exs)) by (rewrite Hc; left).
  apply list_elem_of_In, in_concat in Hb as (g & Hg & Hb).
  apply list_elem_of_In, list_elem_of_fmap in Hg as (e & -> & He).
  apply list_elem_of_In in Hb.
  eapply Forall_forall in Hinv; [|exact He].
  destruct Hinv as [Hlive _ _ _ _].
  eapply Forall_forall in Hlive; [|exact Hb].
  destruct Hlive as (_ & Hlen & Htwo).
  destruct (Htwo ltac:(lia)) as [Htwo' _].
  assert (Hmax : (length (ex_x0 e) ≤ max_length xs)%nat).
  { apply max_list_elem_of_le. rewrite <- Hxs, <- list_fmap_compose.
    apply list_elem_of_fmap. by exists e. }
  lia.
Qed.

(** The loop returns within the bound, from any round boundary. *)
Lemma search_spec fuel :
  ∀ k exs s, represents k exs s → (1 ≤ fuel)%nat →
    (max_length xs - 1 ≤ k + fuel)%nat →
    ∃ rounds exs',
      search (predict <$> xs) max_beam_size (length xs) fuel k s.1 s.2
      = Returned rounds (ex_final_xs <$> exs') (ex_final_removed <$> exs') ∧
      ex_x0 <$> exs' = xs ∧ Forall (ex_inv max_beam_size rounds) exs' ∧
      (S k ≤ rounds)%nat ∧ (rounds ≤ S k `max` (max_length xs - 1))%nat.
Proof.
  induction fuel as [|fuel IH]; intros k exs s Hrep Hfuel Hbound; [lia|].
  destruct (round_represented _ _ _ Hrep)
    as (exs' & Hxs & Hinv & _ & [[Hnil Hround]|[Hne Hround]]).
  - exists (S k), exs'. cbn [search]. rewrite Hround. simpl.
    split; [done|]. split; [done|]. split; [done|]. lia.
  - cbn [search]. rewrite Hround.
    pose proof (live_bound _ _ Hxs Hinv Hne) as Hlive.
    destruct (IH (S k) exs' (beams_of exs', finals_of exs'))
      as (rounds & exs'' & Hs & Hxs' & Hinv' & Hlo & Hhi);
      [by split|lia|lia|].
    exists rounds, exs''. simpl in Hs. rewrite Hs.
    split; [done|]. split; [done|]. split; [done|]. lia.
Qed.

(** Round boundaries of the search are represented states. *)
Lemma nsteps_represented k s :
  nsteps (step xs max_beam_size) k (initial_state xs) s →
  ∃ exs, represents k exs s.
Proof.
  revert s. induction k as [|k IH]; intros s Hs.
  - inv Hs. eexists. apply represents_initial.
  - apply nsteps_inv_r in Hs as (s0 & Hs0 & Hstep).
    destruct (IH _ Hs0) as (exs & Hrep).
    destruct (round_represented _ _ _ Hrep)
      as (exs' & Hxs & Hinv & _ & [[_ Hround]|[_ Hround]]);
      unfold step in Hstep; rewrite Hround in Hstep; [done|].
    injection Hstep as <-. exists exs'. by split.
Qed.

(** [get_rawr] returns, within [rounds_bound xs] rounds, results that
    satisfy the invariant. *)
Lemma get_rawr_spec n :
  ∃ rounds exs,
    get_rawr (rounds_bound xs + n) xs max_beam_size
    = Returned rounds (ex_final_xs <$> exs) (ex_final_removed <$> exs) ∧
    ex_x0 <$> exs = xs ∧ Forall (ex_inv max_beam_size rounds) exs ∧
    (1 ≤ rounds ≤ rounds_bound xs)%nat.
Proof.
  destruct (search_spec (rounds_bound xs + n) 0 _ _ represents_initial)
    as (rounds & exs & Hs & Hxs & Hinv & Hlo & Hhi);
    [unfold rounds_bound; lia..|].
  exists rounds, exs. unfold get_rawr. split; [done|].
  unfold rounds_bound. split; [done|]. split; [done|]. lia.
Qed.
End search_spec.

(** ** From the invariant to the lists [get_rawr] returns *)

Lemma Forall3_examples
    (P : list token → list (list token) → list (list nat) → Prop)
    (exs : list example) :
  Forall (λ e, P (ex_x0 e) (ex_final_xs e) (ex_final_removed e)) exs →
  Forall3 P (ex_x0 <$> exs) (ex_final_xs <$> exs) (ex_final_removed <$> exs).
Proof. induction 1; simpl; by constructor. Qed.

Lemma sum_list_lengths {A} (gs : list (list A)) :
  sum_list (length <$> gs) = length (concat gs).
Proof.
  induction gs as [|g gs IH]; [done|].
  rewrite fmap_cons. cbn [sum_list sum_list_with concat].
  by rewrite length_app, <- IH.
Qed.


(** The positions that remain are exactly those not removed. *)
Lemma derived_complement x0 x idx r :
  derived x0 (Beam x idx r) →
  NoDup r ∧ Forall (λ p, p < length x0)%nat r ∧
  idx = filter (λ p, p ∉ r) (seq 0 (length x0)).
Proof.
  intros [_ Hp Hs _ _]. simpl in *.
  assert (Hnd : NoDup (r ++ idx)) by (rewrite Hp; apply NoDup_seq).
  apply NoDup_app in Hnd as (Hr & Hdisj & Hidx).
  split; [done|]. split.
  - apply Forall_forall. intros p Hpr.
    assert (Hin : p ∈ seq 0 (length x0)).
    { rewrite <- Hp. apply elem_of_app. by left. }
    apply elem_of_seq in Hin. lia.
  - apply (StronglySorted_unique_strong lt); [intros; lia|done| |].
    + eapply StronglySorted_sublist; [apply sublist_filter; apply _|].
      apply StronglySorted_lt_seq.
    + apply NoDup_Permutation; [done|apply NoDup_filter, NoDup_seq|].
      intros p. rewrite list_elem_of_filter, <- Hp, elem_of_app. split.
      * intros Hpi. split; [|by right]. intros Hpr. by eapply Hdisj.
      * intros [Hn [?|?]]; done.
Qed.

(** ** Properties of the flat round state *)

(** [sum(n_beams) == len(xs) == len(indices) == len(removed_indices)] *)
Definition consistent (bs : beams) : Prop :=
  sum_list (b_n_beams bs) = length (b_xs bs) ∧
  length (b_xs bs) = length (b_indices bs) ∧
  length (b_indices bs) = length (b_removed_indices bs).

(** The flat lists are the groups of the examples laid end to end, the
    beams of a group being reductions of that example's sequence. *)
Definition sliced (xs : list (list token)) (bs : beams) : Prop :=
  ∃ groups, bs = flat groups ∧
            Forall2 (λ x0 g, Forall (derived x0) g) xs groups.

(** An example without beams in [bs] has none in [bs']. *)
Definition zeros_kept (bs bs' : beams) : Prop :=
  Forall2 (λ nb nb', nb = 0%nat → nb' = 0%nat)
          (b_n_beams bs) (b_n_beams bs').

(** No example's recorded length is larger in [fin'] than in [fin]. *)
Definition lengths_shrink (fin fin' : finals) : Prop :=
  Forall2 (λ len len', len' ≤ len)%nat
          (final_length fin) (final_length fin').

Definition strict_subsequence {A} (x x0 : list A) : Prop :=
  x `sublist_of` x0 ∧ x ≠ x0.

Lemma flat_consistent groups : consistent (flat groups).
Proof.
  unfold consistent, flat. simpl.
  by rewrite sum_list_lengths, !length_fmap.
Qed.

Lemma zeros_kept_refl bs : zeros_kept bs bs.
Proof. by apply Forall_Forall2_diag, Forall_forall. Qed.

Lemma zeros_kept_trans bs1 bs2 bs3 :
  zeros_kept bs1 bs2 → zeros_kept bs2 bs3 → zeros_kept bs1 bs3.
Proof.
  unfold zeros_kept.
  generalize (b_n_beams bs1), (b_n_beams bs2), (b_n_beams bs3).
  intros l1 l2 l3 H12. revert l3.
  induction H12; intros l3 H23; inv H23; constructor; auto.
Qed.

Lemma lengths_shrink_refl fin : lengths_shrink fin fin.
Proof. by apply Forall_Forall2_diag, Forall_forall. Qed.

Lemma lengths_shrink_trans fin1 fin2 fin3 :
  lengths_shrink fin1 fin2 → lengths_shrink fin2 fin3 →
  lengths_shrink fin1 fin3.
Proof.
  unfold lengths_shrink.
  generalize (final_length fin1), (final_length fin2), (final_length fin3).
  intros l1 l2 l3 H12. revert l3.
  induction H12; intros l3 H23; inv H23; constructor; [lia|auto].
Qed.

Lemma sublist_shorter_strict {A} (x x0 : list A) :
  x `sublist_of` x0 → (length x < length x0)%nat → strict_subsequence x x0.
Proof. intros Hs Hl. split; [done|]. intros ->. lia. Qed.

Lemma expands_derived `{M : Model} max_beam_size (exs : list example) gs' :
  Forall (λ e, Forall (derived (ex_x0 e)) (ex_beams e)) exs →
  Forall2 (λ e g', expands max_beam_size (ex_beams e) g') exs gs' →
  Forall2 (λ e g', Forall (derived (ex_x0 e)) g') exs gs'.
Proof.
  intros Hd Hexp. revert Hd.
  induction Hexp as [|e g' l l' [_ Hg] _ IH]; intros Hd; [constructor|].
  apply Forall_cons in Hd as [He Hd]. constructor; [|by apply IH].
  eapply Forall_impl; [exact Hg|]. simpl.
  intros b' (b & j & Hb & _ & Hj & Hc).
  eapply Forall_forall in Hb; [|exact He].
  by destruct (derived_child _ _ _ _ Hb Hj Hc).
Qed.

Section reachable.
Context `{M : Model}.
Context (xs : list (list token)) (max_beam_size : nat).

Lemma represents_sliced k exs s :
  represents xs max_beam_size k exs s → sliced xs s.1.
Proof.
  intros (-> & <- & Hinv). exists (ex_beams <$> exs). split; [done|].
  apply Forall2_fmap, Forall_Forall2_diag.
  eapply Forall_impl; [exact Hinv|]. intros e [Hlive _ _ _ _].
  eapply Forall_impl; [exact Hlive|]. by intros b [? _].
Qed.

Lemma step_represented k exs s s' :
  represents xs max_beam_size k exs s → step xs max_beam_size s s' →
  ∃ exs', represents xs max_beam_size (S k) exs' s' ∧
          zeros_kept s.1 s'.1 ∧ lengths_shrink s.2 s'.2.
Proof.
  intros Hrep Hstep.
  destruct (round_represented _ max_beam_size _ _ _ Hrep)
    as (exs' & Hxs & Hinv & Hz & [[_ Hround]|[_ Hround]]);
    unfold step in Hstep; rewrite Hround in Hstep; [done|].
  injection Hstep as <-. exists exs'. split; [by split|].
  destruct Hrep as (-> & _ & _). split.
  - unfold zeros_kept, beams_of, flat. simpl.
    apply Forall2_fmap, Forall2_fmap.
    eapply Forall2_impl; [exact Hz|]. simpl.
    intros e e' [H _] Hlen%nil_length_inv. by rewrite H.
  - unfold lengths_shrink, finals_of. simpl. apply Forall2_fmap.
    eapply Forall2_impl; [exact Hz|]. simpl. by intros e e' [_ H].
Qed.

Lemma steps_kept m :
  ∀ k exs s s', represents xs max_beam_size k exs s →
    nsteps (step xs max_beam_size) m s s' →
    zeros_kept s.1 s'.1 ∧ lengths_shrink s.2 s'.2.
Proof.
  induction m as [|m IH]; intros k exs s s' Hrep Hsteps.
  - inv Hsteps. split; [apply zeros_kept_refl|apply lengths_shrink_refl].
  - inv Hsteps.
    destruct (step_represented _ _ _ _ Hrep ltac:(eassumption))
      as (exs' & Hrep' & Hz & Hl).
    destruct (IH _ _ _ _ Hrep' ltac:(eassumption)) as [Hz' Hl'].
    split; [by eapply zeros_kept_trans|by eapply lengths_shrink_trans].
Qed.

Lemma remove_one_represented k exs s :
  represents xs max_beam_size k exs s →
  ∃ bs1, remove_one s.1 max_beam_size = Some bs1 ∧
         consistent bs1 ∧ sliced xs bs1 ∧ zeros_kept s.1 bs1.
Proof.
  intros (-> & <- & Hinv). simpl.
  assert (Hd : Forall (λ e, Forall (derived (ex_x0 e)) (ex_beams e)) exs).
  { eapply Forall_impl; [exact Hinv|]. intros e [Hlive _ _ _ _].
    eapply Forall_impl; [exact Hlive|]. by intros b [? _]. }
  destruct (remove_one_flat max_beam_size (ex_beams <$> exs))
    as (gs' & Hrem & Hexp).
  { apply Forall_fmap. eapply Forall_impl; [exact Hd|]. simpl.
    intros e He. eapply Forall_impl; [exact He|]. apply derived_aligned. }
  exists (flat gs'). split; [done|]. split; [apply flat_consistent|].
  rewrite Forall2_fmap_l in Hexp. split.
  - exists gs'. split; [done|]. apply Forall2_fmap_l.
    eapply Forall2_impl;
      [exact (expands_derived max_beam_size exs gs' Hd Hexp)|done].
  - unfold zeros_kept, beams_of, flat. simpl.
    rewrite <- list_fmap_compose. apply Forall2_fmap.
    eapply Forall2_impl; [exact Hexp|]. simpl.
    intros e g' Hg Hlen%nil_length_inv. rewrite Hlen in Hg.
    by apply expands_nil in Hg as ->.
Qed.
End reachable.

(** ** The properties of the search *)

Section properties.
Context `{M : Model}.
Context (xs : list (list token)) (max_beam_size : nat).

(** C1 (prediction preservation).  [get_rawr] returns, and every
    sequence in every example's result set has the greedy prediction of
    that example's original sequence; moreover at every later round
    boundary every beam that is still live has that prediction too: a
    candidate whose prediction diverges is neither recorded nor
    expanded. *)
Theorem get_rawr_prediction_preserved :
  (∀ n, ∃ rounds fxs frs,
      get_rawr (rounds_bound xs + n) xs max_beam_size
      = Returned rounds fxs frs ∧
      Forall2 (λ x0 fx, Forall (λ x, predict x = predict x0) fx) xs fxs) ∧
  (∀ k s, nsteps (step xs max_beam_size) (S k) (initial_state xs) s →
      ∃ groups, s.1 = flat groups ∧
        Forall2 (λ x0 g, Forall (λ b, predict (beam_x b) = predict x0) g)
                xs groups).
Proof.
  split.
  - intros n.
    destruct (get_rawr_spec xs max_beam_size n)
      as (rounds & exs & Hret & Hxs & Hinv & _).
    exists rounds, (ex_final_xs <$> exs), (ex_final_removed <$> exs).
    split; [done|]. rewrite <- Hxs.
    apply Forall2_fmap, Forall_Forall2_diag.
    eapply Forall_impl; [exact Hinv|]. by intros e [_ [] _ _ _].
  - intros k s Hs.
    destruct (nsteps_represented _ _ _ _ Hs) as (exs & -> & Hxs & Hinv).
    exists (ex_beams <$> exs). split; [done|]. rewrite <- Hxs.
    apply Forall2_fmap, Forall_Forall2_diag.
    eapply Forall_impl; [exact Hinv|]. intros e [Hlive _ _ _ _].
    eapply Forall_impl; [exact Hlive|]. intros b (_ & _ & Hp).
    apply Hp. lia.
Qed.

(** One length per result set.  At return, all sequences recorded for
    an example have one and the same length.  After the bookkeeping of
    every round, the sequences recorded for an example all have the
    length held in [final_length] for it, no live beam of the example
    is shorter than that, and that length never grows in later
    rounds. *)
Lemma recorded_lengths_shared :
  (∀ n, ∃ rounds fxs frs,
      get_rawr (rounds_bound xs + n) xs max_beam_size
      = Returned rounds fxs frs ∧
      Forall (λ fx, ∃ len, Forall (λ x, length x = len) fx) fxs) ∧
  (∀ k s, nsteps (step xs max_beam_size) k (initial_state xs) s →
      Forall2 (λ fx len, Forall (λ x, length x = len) fx)
              (final_xs s.2) (final_length s.2) ∧
      (∃ groups, s.1 = flat groups ∧
         Forall2 (λ g len, Forall (λ b, len ≤ length (beam_x b))%nat g)
                 groups (final_length s.2)) ∧
      (∀ m s', nsteps (step xs max_beam_size) m s s' →
               lengths_shrink s.2 s'.2)).
Proof.
  split.
  - intros n.
    destruct (get_rawr_spec xs max_beam_size n)
      as (rounds & exs & Hret & Hxs & Hinv & _).
    exists rounds, (ex_final_xs <$> exs), (ex_final_removed <$> exs).
    split; [done|]. apply Forall_fmap.
    eapply Forall_impl; [exact Hinv|]. intros e [_ [] _ _ _]. simpl.
    by exists (ex_final_length e).
  - intros k s Hs.
    destruct (nsteps_represented _ _ _ _ Hs) as (exs & Hrep).
    pose proof Hrep as (-> & Hxs & Hinv).
    split; [|split].
    + simpl. apply Forall2_fmap, Forall_Forall2_diag.
      eapply Forall_impl; [exact Hinv|]. by intros e [_ [] _ _ _].
    + exists (ex_beams <$> exs). split; [done|]. simpl.
      apply Forall2_fmap, Forall_Forall2_diag.
      eapply Forall_impl; [exact Hinv|]. by intros e [_ _ _ _ ?].
    + intros m s' Hm. by eapply steps_kept.
Qed.

(** C4 (deduplication).  At return, no example's result set holds the
    same token sequence twice. *)
Theorem recorded_no_duplicates n :
  ∃ rounds fxs frs,
    get_rawr (rounds_bound xs + n) xs max_beam_size
    = Returned rounds fxs frs ∧
    Forall NoDup fxs.
Proof.
  destruct (get_rawr_spec xs max_beam_size n)
    as (rounds & exs & Hret & Hxs & Hinv & _).
  exists rounds, (ex_final_xs <$> exs), (ex_final_removed <$> exs).
  split; [done|]. apply Forall_fmap.
  eapply Forall_impl; [exact Hinv|]. by intros e [_ [] _ _ _].
Qed.

(** C5, amended (shrinkage).  Every recorded sequence is a subsequence
    of its example's original, no longer than it and with the same last
    element; and an example's result set is either the original alone,
    with nothing removed, or made of strict subsequences only. *)
Theorem recorded_subsequences n :
  ∃ rounds fxs frs,
    get_rawr (rounds_bound xs + n) xs max_beam_size
    = Returned rounds fxs frs ∧
    Forall3 (λ x0 fx fr,
               Forall (λ x, (length x ≤ length x0)%nat ∧
                            x `sublist_of` x0 ∧ last x = last x0) fx ∧
               ((fx = [x0] ∧ fr = [[]]) ∨
                Forall (λ x, strict_subsequence x x0) fx))
            xs fxs frs.
Proof.
  destruct (get_rawr_spec xs max_beam_size n)
    as (rounds & exs & Hret & Hxs & Hinv & _).
  exists rounds, (ex_final_xs <$> exs), (ex_final_removed <$> exs).
  split; [done|]. rewrite <- Hxs. apply Forall3_examples.
  eapply Forall_impl; [exact Hinv|].
  intros e [_ [Hrec Hlen _ _ _ Hseed] _ _ _].
  assert (Hsub : Forall (λ x, x `sublist_of` ex_x0 e ∧
                              last x = last (ex_x0 e))
                        (ex_final_xs e)).
  { eapply Forall2_Forall_l; [exact Hrec|]. apply Forall_true.
    intros r x (idx & [_ _ _ ? ?]). done. }
  split.
  - eapply Forall_impl; [exact Hsub|]. simpl. intros x [Hs Hl].
    split; [by apply sublist_length|done].
  - destruct Hseed as [(? & ? & _)|Hshort]; [by left|right].
    apply Forall_forall. intros x Hx.
    eapply Forall_forall in Hsub as [Hs _]; [|exact Hx].
    eapply Forall_forall in Hlen; [|exact Hx].
    apply sublist_shorter_strict; [done|lia].
Qed.

(** C6 (index correctness).  For every recorded sequence [x] with
    removed-index list [r], the list [idx] of original positions not in
    [r], in increasing order, is such that [r] followed by [idx] is a
    rearrangement of 0 .. L_0 - 1 (the two are disjoint and cover every
    position) and [x] is the original read at the positions [idx]. *)
Theorem removed_indices_partition n :
  ∃ rounds fxs frs,
    get_rawr (rounds_bound xs + n) xs max_beam_size
    = Returned rounds fxs frs ∧
    Forall3 (λ x0 fx fr,
               Forall2 (λ x r, ∃ idx,
                  idx = filter (λ p, p ∉ r) (seq 0 (length x0)) ∧
                  r ++ idx ≡ₚ seq 0 (length x0) ∧
                  Forall2 (λ t p, x0 !! p = Some t) x idx) fx fr)
            xs fxs frs.
Proof.
  destruct (get_rawr_spec xs max_beam_size n)
    as (rounds & exs & Hret & Hxs & Hinv & _).
  exists rounds, (ex_final_xs <$> exs), (ex_final_removed <$> exs).
  split; [done|]. rewrite <- Hxs. apply Forall3_examples.
  eapply Forall_impl; [exact Hinv|]. intros e [_ [Hrec _ _ _ _ _] _ _ _].
  eapply Forall2_impl; [exact Hrec|]. simpl. intros x r (idx & Hd).
  exists idx. destruct (derived_complement _ _ _ _ Hd) as (_ & _ & ?).
  destruct Hd as [? ? _ _ _]. done.
Qed.

(** C7 (nothing to reduce).  When no deletion that the first round
    tries on example [e] keeps its prediction (so in particular when
    deleting any single token other than the last changes it, see
    [irreducible_stuck]), no prediction-preserving reduction of [e] is
    ever found: [get_rawr] returns for it exactly one result, the
    original sequence with an empty removed-index list, and the example
    has no beam at any round boundary after the first round. *)
Theorem unreduced_returns_original e x0 :
  xs !! e = Some x0 → stuck max_beam_size x0 →
  (∀ n, ∃ rounds fxs frs,
      get_rawr (rounds_bound xs + n) xs max_beam_size
      = Returned rounds fxs frs ∧
      fxs !! e = Some [x0] ∧ frs !! e = Some [[]]) ∧
  (∀ k s, nsteps (step xs max_beam_size) (S k) (initial_state xs) s →
      b_n_beams s.1 !! e = Some 0%nat).
Proof.
  intros He Hst. split.
  - intros n.
    destruct (get_rawr_spec xs max_beam_size n)
      as (rounds & exs & Hret & Hxs & Hinv & _).
    exists rounds, (ex_final_xs <$> exs), (ex_final_removed <$> exs).
    split; [done|]. rewrite <- Hxs in He.
    apply list_lookup_fmap_Some in He as (ex & -> & Hex).
    eapply Forall_lookup_1 in Hinv; [|exact Hex].
    destruct Hinv as [_ _ _ Hstuck _].
    destruct (Hstuck Hst) as [(Hfx & Hfr & _) _].
    by rewrite !list_lookup_fmap, Hex, <- Hfx, <- Hfr.
  - intros k s Hs.
    destruct (nsteps_represented _ _ _ _ Hs) as (exs & -> & Hxs & Hinv).
    rewrite <- Hxs in He.
    apply list_lookup_fmap_Some in He as (ex & -> & Hex).
    eapply Forall_lookup_1 in Hinv; [|exact Hex].
    destruct Hinv as [_ _ _ Hstuck _].
    destruct (Hstuck Hst) as [_ Hnil].
    unfold beams_of, flat. simpl.
    rewrite !list_lookup_fmap, Hex. simpl. by rewrite Hnil by lia.
Qed.

(** The number of rounds.  [get_rawr] returns after at least one and
    at most [max 1 (L - 1)] rounds, [L] the length of the longest
    sequence of the batch; and [k] rounds into the search every live
    beam has lost exactly [k] tokens and, past the start, still has at
    least two. *)
Lemma search_rounds :
  (∀ n, ∃ rounds fxs frs,
      get_rawr (rounds_bound xs + n) xs max_beam_size
      = Returned rounds fxs frs ∧
      (1 ≤ rounds ≤ 1 `max` (max_length xs - 1))%nat) ∧
  (∀ k s, nsteps (step xs max_beam_size) k (initial_state xs) s →
      ∃ groups, s.1 = flat groups ∧
        Forall2 (λ x0 g,
                   Forall (λ b, (length (beam_x b) + k = length x0)%nat ∧
                                ((1 ≤ k)%nat →
                                 (2 ≤ length (beam_x b))%nat)) g)
                xs groups).
Proof.
  split.
  - intros n.
    destruct (get_rawr_spec xs max_beam_size n)
      as (rounds & exs & Hret & Hxs & Hinv & Hrounds).
    by exists rounds, (ex_final_xs <$> exs), (ex_final_removed <$> exs).
  - intros k s Hs.
    destruct (nsteps_represented _ _ _ _ Hs) as (exs & -> & Hxs & Hinv).
    exists (ex_beams <$> exs). split; [done|]. rewrite <- Hxs.
    apply Forall2_fmap, Forall_Forall2_diag.
    eapply Forall_impl; [exact Hinv|]. intros e [Hlive _ _ _ _].
    eapply Forall_impl; [exact Hlive|]. intros b (_ & Hlen & Htwo).
    split; [done|]. intros Hk. by destruct (Htwo Hk).
Qed.

(** C9 (flat round state).  At every round boundary the beam counts
    add up to the common length of the three flat lists, which are the
    examples' groups of beams laid end to end; the same holds of what
    [remove_one] returns there, which never raises; and an example
    without beams has none after [remove_one] nor at any later round
    boundary. *)
Theorem round_state_consistent k s :
  nsteps (step xs max_beam_size) k (initial_state xs) s →
  consistent s.1 ∧ sliced xs s.1 ∧
  (∃ bs1, remove_one s.1 max_beam_size = Some bs1 ∧
          consistent bs1 ∧ sliced xs bs1 ∧ zeros_kept s.1 bs1) ∧
  (∀ m s', nsteps (step xs max_beam_size) m s s' → zeros_kept s.1 s'.1).
Proof.
  intros Hs.
  destruct (nsteps_represented _ _ _ _ Hs) as (exs & Hrep).
  split; [|split; [|split]].
  - destruct Hrep as (-> & _). apply flat_consistent.
  - by eapply represents_sliced.
  - by eapply remove_one_represented.
  - intros m s' Hm. by eapply steps_kept.
Qed.

End properties.

(** ** The search on concrete inputs *)

(** The pool of an example is sorted by [-score]: highest score first. *)
Lemma sorted_negated_descending (cs : list coordinate) :
  Sorted Z.ge ((sorted (λ c : coordinate, - c.1) cs).*1).
Proof.
  pose proof (sorted_Sorted (λ c : coordinate, - c.1) cs) as H.
  induction (sorted (λ c : coordinate, - c.1) cs) as [|c l IH]; [constructor|].
  rewrite fmap_cons in H. apply Sorted_inv in H as [Hl Hhd].
  rewrite fmap_cons. constructor; [by apply IH|].
  destruct l as [|d l]; [constructor|].
  rewrite fmap_cons in Hhd. apply HdRel_inv in Hhd.
  rewrite fmap_cons. constructor. lia.
Qed.

(** One sentence of four tokens, the last being the terminator. *)
Definition scenario : list (list token) := [[4; 17; 9; 2]].

(** The round state of [scenario] after one round with beam size 2. *)
Definition scenario_round_1 : state :=
  (Beams [[4; 17; 2]; [17; 9; 2]] [2%nat] [[0; 1; 3]; [1; 2; 3]]%nat
         [[2]; [0]]%nat,
   Finals [[[4; 17; 2]; [17; 9; 2]]] [[[2]; [0]]]%nat [3%nat]).

Example scenario_beam_5 :
  @get_rawr keyword_model 3 scenario 5 = Returned 3 [[[17; 2]]] [[[0; 2]]]%nat.
Proof. vm_compute. reflexivity. Qed.

Example scenario_beam_2 :
  @get_rawr keyword_model 3 scenario 2
  = Returned 2 [[[4; 17; 2]; [17; 9; 2]]] [[[2]; [0]]]%nat.
Proof. vm_compute. reflexivity. Qed.

(** C2 (pooled candidates), on the code.  The pool of an example is
    ordered by descending saliency, for every pool; and in the second
    round of [scenario] the pool holds the scores 4, 17, 9 and 17, of
    which [remove_one] expands the two candidates of score 17 (deleting
    token 17 of either beam), not those of score 4 and 9. *)
Theorem remove_one_pool_descending :
  (∀ cs : list coordinate,
      Sorted Z.ge ((sorted (λ c : coordinate, - c.1) cs).*1)) ∧
  nsteps (@step keyword_model scenario 2) 1 (initial_state scenario)
         scenario_round_1 ∧
  @example_coordinates keyword_model (b_xs scenario_round_1.1) 2 0 2
  = Some [(4, (0, 0)%nat); (17, (0, 1)%nat); (9, (1, 1)%nat);
          (17, (1, 0)%nat)] ∧
  @remove_one keyword_model scenario_round_1.1 2
  = Some (Beams [[4; 2]; [9; 2]] [2%nat] [[0; 3]; [2; 3]]%nat
                [[2; 1]; [0; 1]]%nat).
Proof.
  split; [apply sorted_negated_descending|].
  split; [apply nsteps_once; vm_compute; reflexivity|].
  split; vm_compute; reflexivity.
Qed.

(** An example that cannot be reduced keeps its original sequence, which
    is not a strict subsequence of itself. *)
Lemma recorded_original_not_strict :
  @get_rawr keyword_model 1 [[17; 2]] 5 = Returned 1 [[[17; 2]]] [[[]]] ∧
  ¬ strict_subsequence [17; 2] [17; 2].
Proof.
  split; [vm_compute; reflexivity|]. by intros [_ ?].
Qed.

(** A batch of one lone terminator: the loop body runs once, although
    the longest sequence has length 1. *)
Lemma lone_terminator_takes_a_round :
  @get_rawr keyword_model 1 [[2]] 5 = Returned 1 [[[2]]] [[[]]] ∧
  ¬ (1 ≤ max_length [[2%Z]] - 1)%nat.
Proof.
  split; [vm_compute; reflexivity|]. vm_compute. lia.
Qed.

Lemma get_rawr_prediction_preserved_witness :
  nsteps (@step keyword_model scenario 2) 1 (initial_state scenario)
         scenario_round_1 ∧
  ∃ groups, scenario_round_1.1 = flat groups ∧
    Forall2 (λ x0 g, Forall (λ b, @predict keyword_model (beam_x b)
                                  = @predict keyword_model x0) g)
            scenario groups.
Proof.
  assert (H : nsteps (@step keyword_model scenario 2) 1
                (initial_state scenario) scenario_round_1)
    by (apply nsteps_once; vm_compute; reflexivity).
  split; [exact H|].
  exact (proj2 (@get_rawr_prediction_preserved keyword_model scenario 2)
               0%nat scenario_round_1 H).
Defined.

Lemma unreduced_returns_original_witness :
  [[17; 2]; [4; 17; 9; 2]] !! 0%nat = Some [17; 2] ∧
  @stuck keyword_model 5 [17; 2] ∧
  (∀ n, ∃ rounds fxs frs,
      @get_rawr keyword_model (rounds_bound [[17; 2]; [4; 17; 9; 2]] + n)
                [[17; 2]; [4; 17; 9; 2]] 5
      = Returned rounds fxs frs ∧
      fxs !! 0%nat = Some [[17; 2]] ∧ frs !! 0%nat = Some [[]]) ∧
  (∀ k s, nsteps (@step keyword_model [[17; 2]; [4; 17; 9; 2]] 5) (S k)
                 (initial_state [[17; 2]; [4; 17; 9; 2]]) s →
      b_n_beams s.1 !! 0%nat = Some 0%nat).
Proof.
  assert (Hst : @stuck keyword_model 5 [17; 2]).
  { intros j Hj.
    assert (j = 0%nat) as -> by (apply tried_lt in Hj; simpl in Hj; lia).
    vm_compute. discriminate. }
  split; [reflexivity|]. split; [exact Hst|].
  exact (@unreduced_returns_original keyword_model [[17; 2]; [4; 17; 9; 2]]
           5 0 [17; 2] eq_refl Hst).
Defined.

Lemma round_state_consistent_witness :
  nsteps (@step keyword_model scenario 2) 1 (initial_state scenario)
         scenario_round_1 ∧
  consistent scenario_round_1.1 ∧ sliced scenario scenario_round_1.1 ∧
  (∃ bs1, @remove_one keyword_model scenario_round_1.1 2 = Some bs1 ∧
          consistent bs1 ∧ sliced scenario bs1 ∧
          zeros_kept scenario_round_1.1 bs1) ∧
  (∀ m s', nsteps (@step keyword_model scenario 2) m scenario_round_1 s' →
           zeros_kept scenario_round_1.1 s'.1).
Proof.
  assert (H : nsteps (@step keyword_model scenario 2) 1
                (initial_state scenario) scenario_round_1)
    by (apply nsteps_once; vm_compute; reflexivity).
  split; [exact H|].
  exact (@round_state_consistent keyword_model scenario 2 1 scenario_round_1 H).
Defined.

(** ** [remove_one], group by group

    What [remove_one] makes of one example's group of beams, as a
    function of the group alone. *)

Lemma insert_by_fmap {A B} (f : A → B) (key : B → Z) a l :
  insert_by key (f a) (f <$> l) = f <$> insert_by (key ∘ f) a l.
Proof.
  induction l as [|b l IH]; [done|].
  rewrite fmap_cons. cbn [insert_by]. unfold compose at 1 2.
  destruct (decide (key (f a) ≤ key (f b))); [done|].
  by rewrite fmap_cons, IH.
Qed.

Lemma sorted_fmap {A B} (f : A → B) (key : B → Z) l :
  sorted key (f <$> l) = f <$> sorted (key ∘ f) l.
Proof.
  induction l as [|a l IH]; [done|].
  rewrite fmap_cons. unfold sorted in *. cbn [foldr].
  by rewrite IH, insert_by_fmap.
Qed.

Section group.
Context `{M : Model}.
Context (max_beam_size : nat).

(** The candidates of one beam, [i] being its place in the flat lists. *)
Definition beam_pool (i : nat) (b : beam) : list coordinate :=
  (λ j, (saliency (beam_x b) j, (i, j))) <$> tried max_beam_size (beam_x b).

(** The pool of a group whose first beam is at place [start]. *)
Fixpoint pool_from (start : nat) (g : list beam) : list coordinate :=
  match g with
  | [] => []
  | b :: g' => beam_pool start b ++ pool_from (S start) g'
  end.

(** The coordinates expanded: the first [max_beam_size] of the pool
    sorted by [-score]. *)
Definition chosen (start : nat) (g : list beam) : list (nat * nat) :=
  take max_beam_size
       ((sorted (λ c : coordinate, - c.1) (pool_from start g)).*2).

Definition child_at (g : list beam) (c : nat * nat) : option beam :=
  b ← g !! c.1; child_of b c.2.

Definition expand_group (g : list beam) : list beam :=
  omap (child_at g) (chosen 0 g).

Definition shift (s : nat) (c : nat * nat) : nat * nat := ((s + c.1)%nat, c.2).

Definition shift_coordinate (s : nat) (c : coordinate) : coordinate :=
  (c.1, shift s c.2).

Lemma beam_coordinates_exact xs i b :
  xs !! i = Some (beam_x b) →
  beam_coordinates xs max_beam_size i = Some (beam_pool i b).
Proof.
  intros Hx. unfold beam_coordinates, order, onehot_grad, get_onehot_grad.
  rewrite !list_lookup_fmap, Hx. simpl.
  rewrite length_fmap, length_seq. fold (tried max_beam_size (beam_x b)).
  apply mapM_Forall_Some, Forall_forall. intros j Hj%tried_lt.
  rewrite list_lookup_fmap, lookup_seq_lt by lia. done.
Qed.

Lemma coordinates_exact xs g :
  ∀ s, (∀ k b, g !! k = Some b → xs !! (s + k)%nat = Some (beam_x b)) →
  example_coordinates xs max_beam_size s (length g) = Some (pool_from s g).
Proof.
  unfold example_coordinates.
  assert (H : ∀ s,
    (∀ k b, g !! k = Some b → xs !! (s + k)%nat = Some (beam_x b)) →
    ∃ css, mapM (beam_coordinates xs max_beam_size) (seq s (length g))
           = Some css ∧ concat css = pool_from s g).
  { induction g as [|b g IH]; intros s Hxs; [by exists []|].
    destruct (IH (S s)) as (css & Hcss & Hc).
    { intros k b' Hk.
      replace (S s + k)%nat with (s + S k)%nat by lia. by apply Hxs. }
    exists (beam_pool s b :: css). cbn [length seq mapM].
    rewrite (beam_coordinates_exact xs s b), Hcss.
    - simpl. by rewrite Hc.
    - rewrite <- (Nat.add_0_r s). by apply Hxs. }
  intros s Hxs. destruct (H s Hxs) as (css & -> & <-). done.
Qed.

Lemma pool_from_shift s t g :
  pool_from (s + t) g = shift_coordinate s <$> pool_from t g.
Proof.
  revert t. induction g as [|b g IH]; intros t; simpl; [done|].
  rewrite fmap_app. f_equal.
  - unfold beam_pool. by rewrite <- list_fmap_compose.
  - rewrite <- IH. f_equal. lia.
Qed.

Lemma chosen_shift s g : chosen s g = shift s <$> chosen 0 g.
Proof.
  unfold chosen. rewrite <- (Nat.add_0_r s) at 1.
  rewrite pool_from_shift, sorted_fmap, fmap_take.
  rewrite <- !list_fmap_compose. done.
Qed.

Lemma elem_of_pool_from s g c :
  c ∈ pool_from s g →
  ∃ k b, c.2.1 = (s + k)%nat ∧ g !! k = Some b ∧
         c.2.2 ∈ tried max_beam_size (beam_x b) ∧
         c.1 = saliency (beam_x b) c.2.2.
Proof.
  revert s. induction g as [|b g IH]; intros s Hc; simpl in Hc.
  - by apply elem_of_nil in Hc.
  - apply elem_of_app in Hc as [Hc|Hc].
    + apply list_elem_of_fmap in Hc as (j & -> & Hj).
      exists 0%nat, b. simpl. split; [lia|done].
    + destruct (IH _ Hc) as (k & b' & Hk & Hb' & Hj).
      exists (S k), b'. split; [lia|done].
Qed.

Lemma elem_of_chosen g c :
  c ∈ chosen 0 g →
  ∃ b, g !! c.1 = Some b ∧ c.2 ∈ tried max_beam_size (beam_x b).
Proof.
  intros Hc. apply elem_of_take in Hc as (n & Hc & _).
  apply list_elem_of_lookup_2, list_elem_of_fmap in Hc as (c' & -> & Hc').
  rewrite sorted_perm in Hc'.
  destruct (elem_of_pool_from _ _ _ Hc') as (k & b & Hk & Hb & Hj & _).
  exists b. simpl in Hk. by rewrite Hk.
Qed.
End group.

Section remove_one_exact.
Context `{M : Model}.
Context (max_beam_size : nat).

Lemma children_exact pre g post (cs : list (nat * nat)) :
  Forall aligned g →
  Forall (λ c, ∃ b, g !! c.1 = Some b ∧
                    c.2 ∈ tried max_beam_size (beam_x b)) cs →
  mapM (child (beam_x <$> concat (pre ++ g :: post))
              (beam_indices <$> concat (pre ++ g :: post))
              (beam_removed <$> concat (pre ++ g :: post)))
       (shift (length (concat pre)) <$> cs)
  = Some (triple <$> omap (child_at g) cs) ∧
  length (omap (child_at g) cs) = length cs.
Proof.
  intros Hal. induction 1 as [|[k j] cs (b & Hk & Hj) _ [IH1 IH2]]; [done|].
  simpl in Hk, Hj.
  destruct (child_spec pre g post k b j Hal Hk (tried_lt _ _ _ Hj))
    as (b' & Hb' & Hc).
  assert (Hat : child_at g (k, j) = Some b').
  { unfold child_at. simpl. by rewrite Hk. }
  rewrite fmap_cons. cbn [mapM omap list_omap].
  change (shift (length (concat pre)) (k, j))
    with ((length (concat pre) + k)%nat, j).
  rewrite Hc, IH1, Hat. simpl. by rewrite IH2.
Qed.

Lemma expand_group_nil : expand_group max_beam_size [] = [].
Proof. unfold expand_group, chosen. simpl. by rewrite take_nil. Qed.

Lemma expand_group_children g :
  Forall aligned g →
  mapM (child_at g) (chosen max_beam_size 0 g)
  = Some (expand_group max_beam_size g).
Proof.
  intros Hal. unfold expand_group.
  assert (H : Forall (λ c, is_Some (child_at g c))
                     (chosen max_beam_size 0 g)).
  { apply Forall_forall. intros [k j] (b & Hk & Hj)%elem_of_chosen.
    simpl in Hk, Hj. unfold child_at, child_of. simpl. rewrite Hk. simpl.
    assert (Hb : aligned b).
    { eapply Forall_forall in Hal; [done|]. by eapply list_elem_of_lookup_2. }
    destruct (lookup_lt_is_Some_2 (beam_indices b) j) as [p Hp].
    { rewrite Hb. apply tried_lt in Hj. lia. }
    rewrite Hp. by eexists. }
  induction H as [|c cs [b' Hc] _ IH]; [done|].
  cbn [mapM omap list_omap]. rewrite Hc, IH. done.
Qed.

Lemma length_expand_group g :
  Forall aligned g →
  length (expand_group max_beam_size g)
  = length (chosen max_beam_size 0 g).
Proof.
  intros Hal. symmetry. eapply length_mapM. by apply expand_group_children.
Qed.

Lemma remove_one_loop_exact all :
  Forall (Forall aligned) all →
  ∀ gs pre acc, all = pre ++ gs →
    remove_one_loop (beam_x <$> concat all) (beam_indices <$> concat all)
      (beam_removed <$> concat all) max_beam_size
      (length <$> gs) (length (concat pre)) (flat acc)
    = Some (flat (acc ++ (expand_group max_beam_size <$> gs))).
Proof.
  intros Hal gs. induction gs as [|g gs IH]; intros pre acc ->.
  - simpl. by rewrite app_nil_r.
  - rewrite !fmap_cons. cbn [remove_one_loop].
    rewrite (cons_middle (expand_group max_beam_size g)), app_assoc.
    assert (Hpre : (length (concat pre) + length g)%nat
                   = length (concat (pre ++ [g]))).
    { rewrite concat_app, length_app. simpl. by rewrite app_nil_r. }
    assert (Hall : pre ++ g :: gs = (pre ++ [g]) ++ gs)
      by (by rewrite <- app_assoc).
    case_decide as Hg.
    + apply nil_length_inv in Hg. subst g.
      rewrite expand_group_nil, <- flat_snoc_nil.
      replace (length (concat pre)) with (length (concat (pre ++ [[]])))
        by (by rewrite concat_app, length_app).
      by apply IH.
    + rewrite (coordinates_exact max_beam_size _ g).
      2:{ intros k b Hk.
          rewrite list_lookup_fmap, lookup_concat_middle, Hk; [done|].
          by eapply lookup_lt_Some. }
      cbn [mbind option_bind].
      apply Forall_app in Hal as [_ Hg'].
      apply Forall_cons in Hg' as [Hg' _].
      case_decide as Hempty.
      * assert (Hnil : expand_group max_beam_size g = []).
        { apply nil_length_inv in Hempty.
          rewrite <- (Nat.add_0_r (length (concat pre))) in Hempty.
          rewrite pool_from_shift in Hempty.
          apply fmap_nil_inv in Hempty.
          unfold expand_group, chosen. rewrite Hempty. simpl.
          by rewrite take_nil. }
        rewrite Hnil, <- flat_snoc_nil, Hpre. by apply IH.
      * fold (chosen max_beam_size (length (concat pre)) g).
        rewrite chosen_shift.
        destruct (children_exact pre g gs (chosen max_beam_size 0 g) Hg')
          as [Hch Hlen].
        { apply Forall_forall. intros c Hc. by apply elem_of_chosen. }
        fold (expand_group max_beam_size g) in Hch, Hlen.
        rewrite Hch. cbn [mbind option_bind].
        rewrite length_fmap, <- Hlen, <- flat_snoc, Hpre. by apply IH.
Qed.

(** [remove_one] expands every group on its own. *)
Lemma remove_one_exact gs :
  Forall (Forall aligned) gs →
  remove_one (flat gs) max_beam_size
  = Some (flat (expand_group max_beam_size <$> gs)).
Proof.
  intros Hal. exact (remove_one_loop_exact gs Hal gs [] [] eq_refl).
Qed.

Lemma expands_exact g :
  Forall aligned g → expands max_beam_size g (expand_group max_beam_size g).
Proof.
  intros Hal. split.
  - rewrite length_expand_group by done. unfold chosen.
    rewrite length_take. lia.
  - pose proof (expand_group_children g Hal) as Hm.
    apply mapM_Some_1 in Hm. apply Forall_forall. intros b' Hb'.
    apply list_elem_of_lookup in Hb' as [n Hn].
    destruct (Forall2_lookup_r _ _ _ _ _ Hm Hn) as ([k j] & Hc & Hcb).
    apply list_elem_of_lookup_2, elem_of_chosen in Hc as (b & Hk & Hj).
    simpl in Hk, Hj. unfold child_at in Hcb. simpl in Hcb.
    rewrite Hk in Hcb. simpl in Hcb. exists b, j.
    split; [by eapply list_elem_of_lookup_2|].
    split; [done|]. split; [by eapply tried_lt|done].
Qed.
End remove_one_exact.

(** ** The search, example by example *)

Section search_exact.
Context `{M : Model}.
Context (max_beam_size : nat).

(** One round on one example: expand its beams, then visit the
    candidates. *)
Definition expand_example (e : example) : example :=
  with_beams e (expand_group max_beam_size (ex_beams e)).

Definition step_example (e : example) : example := book (expand_example e).

(** The example of original [x] after [k] rounds. *)
Definition state_at (k : nat) (x : list token) : example :=
  Nat.iter k step_example (initial_example x).

Lemma round_exact exs :
  Forall (λ e, Forall aligned (ex_beams e)) exs →
  round ((predict ∘ ex_x0) <$> exs) max_beam_size (length exs)
        (beams_of exs) (finals_of exs)
  = Some (if decide (concat (ex_beams <$> (step_example <$> exs)) = [])
          then inl (finals_of (step_example <$> exs))
          else inr (beams_of (step_example <$> exs),
                    finals_of (step_example <$> exs))).
Proof.
  intros Hal. set (exs1 := expand_example <$> exs).
  assert (Hrem : remove_one (beams_of exs) max_beam_size
                 = Some (beams_of exs1)).
  { unfold beams_of. rewrite remove_one_exact by (by apply Forall_fmap).
    unfold exs1. by rewrite <- !list_fmap_compose. }
  assert (Hys : (predict ∘ ex_x0) <$> exs1 = (predict ∘ ex_x0) <$> exs).
  { unfold exs1. by rewrite <- list_fmap_compose. }
  assert (Hfin : finals_of exs1 = finals_of exs).
  { unfold finals_of, exs1. by rewrite <- !list_fmap_compose. }
  assert (Hlen : length exs = length exs1)
    by (unfold exs1; by rewrite length_fmap).
  assert (Hbook : step_example <$> exs = book <$> exs1).
  { unfold exs1. by rewrite <- list_fmap_compose. }
  rewrite Hbook. unfold round. rewrite Hrem. cbn [mbind option_bind].
  rewrite <- Hys, <- Hfin, Hlen.
  pose proof (examples_loop_spec exs1 exs1 [] [] [] [] eq_refl eq_refl)
    as Hloop.
  cbn [length app concat fmap list_fmap] in Hloop.
  rewrite Hloop. cbn [mbind option_bind].
  pose proof (gather_remained beam_x exs1 exs1 [] eq_refl) as Gx.
  pose proof (gather_remained beam_indices exs1 exs1 [] eq_refl) as Gi.
  pose proof (gather_remained beam_removed exs1 exs1 [] eq_refl) as Gr.
  cbn [length app concat fmap list_fmap] in Gx, Gi, Gr.
  assert (Hrlen : length (remained_of 0 exs1)
                  = length (concat (ex_beams <$> (book <$> exs1)))).
  { apply length_mapM in Gx. by rewrite length_fmap in Gx. }
  case_decide as Hz.
  - rewrite decide_True; [done|].
    apply nil_length_inv. by rewrite <- Hrlen.
  - rewrite decide_False.
    2:{ intros Hnil. apply Hz. by rewrite Hrlen, Hnil. }
    unfold beams_of at 1 2 3, flat at 1 2 3.
    cbn [b_xs b_indices b_removed_indices].
    rewrite Gx, Gi, Gr. cbn [mbind option_bind].
    unfold beams_of, flat. by rewrite <- !list_fmap_compose.
Qed.

Lemma step_example_inv k e :
  ex_inv max_beam_size k e →
  ex_x0 (step_example e) = ex_x0 e ∧
  ex_inv max_beam_size (S k) (step_example e).
Proof.
  intros Hinv. apply ex_inv_step; [done|].
  unfold expanded, expand_example. simpl.
  do 4 (split; [done|]). apply expands_exact.
  destruct Hinv as [Hlive _ _ _ _].
  eapply Forall_impl; [exact Hlive|]. intros b [Hd _].
  by eapply derived_aligned.
Qed.

Lemma state_at_inv k x :
  ex_x0 (state_at k x) = x ∧ ex_inv max_beam_size k (state_at k x).
Proof.
  induction k as [|k [IH1 IH2]].
  - split; [done|]. apply ex_inv_initial.
  - destruct (step_example_inv _ _ IH2) as [H1 H2].
    change (state_at (S k) x) with (step_example (state_at k x)).
    split; [|exact H2]. by rewrite H1.
Qed.

Lemma state_at_aligned k xs :
  Forall (λ e, Forall aligned (ex_beams e)) (state_at k <$> xs).
Proof.
  apply Forall_fmap, Forall_forall. intros x _. simpl.
  destruct (state_at_inv k x) as [_ [Hlive _ _ _ _]].
  eapply Forall_impl; [exact Hlive|]. intros b [Hd _].
  by eapply derived_aligned.
Qed.

Lemma state_at_constants k xs :
  (predict ∘ ex_x0) <$> (state_at k <$> xs) = predict <$> xs ∧
  ex_x0 <$> (state_at k <$> xs) = xs ∧
  Forall (ex_inv max_beam_size k) (state_at k <$> xs).
Proof.
  split; [|split].
  - rewrite <- list_fmap_compose. apply list_fmap_ext. intros i x _.
    simpl. by destruct (state_at_inv k x) as [-> _].
  - rewrite <- list_fmap_compose. rewrite <- (list_fmap_id xs) at 2.
    apply list_fmap_ext. intros i x _.
    simpl. by destruct (state_at_inv k x) as [-> _].
  - apply Forall_fmap, Forall_forall. intros x _. apply state_at_inv.
Qed.

(** The loop stops at the first round that leaves no beam anywhere, and
    returns what every example has recorded by then. *)
Lemma search_exact xs fuel :
  ∀ k, (1 ≤ fuel)%nat → (max_length xs - 1 ≤ k + fuel)%nat →
  ∃ R,
    search (predict <$> xs) max_beam_size (length xs) fuel k
           (beams_of (state_at k <$> xs)) (finals_of (state_at k <$> xs))
    = Returned R (ex_final_xs <$> (state_at R <$> xs))
                 (ex_final_removed <$> (state_at R <$> xs)) ∧
    (S k ≤ R)%nat ∧
    Forall (λ x, ex_beams (state_at R x) = []) xs ∧
    (∀ r, (S k ≤ r < R)%nat →
          Exists (λ x, ex_beams (state_at r x) ≠ []) xs).
Proof.
  induction fuel as [|fuel IH]; intros k Hfuel Hbound; [lia|].
  destruct (state_at_constants k xs) as (Hys & Hxs & Hinv).
  pose proof (round_exact _ (state_at_aligned k xs)) as Hround.
  rewrite Hys, length_fmap in Hround.
  assert (Hnext : step_example <$> (state_at k <$> xs) = state_at (S k) <$> xs)
    by (by rewrite <- list_fmap_compose).
  rewrite Hnext in Hround. cbn [search]. rewrite Hround.
  destruct (state_at_constants (S k) xs) as (_ & Hxs' & Hinv').
  case_decide as Hnil.
  - exists (S k). split; [done|]. split; [lia|]. split; [|intros r Hr; lia].
    apply Forall_forall. intros x Hx.
    assert (Hall : Forall (.= []) (ex_beams <$> (state_at (S k) <$> xs))).
    { clear -Hnil. revert Hnil.
      generalize (ex_beams <$> (state_at (S k) <$> xs)).
      intros l. induction l as [|g l IHl]; intros H; [constructor|].
      simpl in H. apply app_eq_nil in H as [-> H]. constructor; auto. }
    rewrite <- list_fmap_compose in Hall.
    rewrite Forall_fmap in Hall. by eapply Forall_forall in Hall.
  - pose proof (live_bound xs max_beam_size k _ Hxs' Hinv' Hnil) as Hlive.
    destruct (IH (S k)) as (R & HR & Hlo & Hend & Hmid); [lia|lia|].
    exists R. split; [done|]. split; [lia|]. split; [done|].
    intros r Hr. destruct (decide (r = S k)) as [->|Hne].
    + apply not_Forall_Exists; [apply _|]. intros Hall. apply Hnil.
      clear -Hall. induction Hall as [|x l Hx _ IHl]; [done|].
      rewrite !fmap_cons. cbn [concat]. by rewrite Hx, IHl.
    + apply Hmid. lia.
Qed.
End search_exact.

Lemma StronglySorted_lookup_lt {A} (R : relation A) l i j a b :
  StronglySorted R l → l !! i = Some a → l !! j = Some b → (i < j)%nat →
  R a b.
Proof.
  intros Hs. revert i j.
  induction Hs as [|x l Hs IH Hx]; intros i j Hi Hj Hij; [done|].
  destruct j as [|j]; [lia|]. simpl in Hj. destruct i as [|i].
  - injection Hi as <-. eapply Forall_forall in Hx; [done|].
    by eapply list_elem_of_lookup_2.
  - simpl in Hi. eapply IH; [done..|lia].
Qed.

Section exact_facts.
Context `{M : Model}.
Context (max_beam_size : nat).

Lemma get_rawr_exact xs n :
  ∃ R,
    get_rawr (rounds_bound xs + n) xs max_beam_size
    = Returned R (ex_final_xs <$> (state_at max_beam_size R <$> xs))
                 (ex_final_removed <$> (state_at max_beam_size R <$> xs)) ∧
    (1 ≤ R)%nat ∧
    Forall (λ x, ex_beams (state_at max_beam_size R x) = []) xs ∧
    (∀ r, (1 ≤ r < R)%nat →
          Exists (λ x, ex_beams (state_at max_beam_size r x) ≠ []) xs).
Proof.
  destruct (search_exact max_beam_size xs (rounds_bound xs + n) 0)
    as (R & HR & Hlo & Hend & Hmid); [unfold rounds_bound; lia..|].
  exists R. split; [|done]. unfold get_rawr.
  by rewrite <- beams_of_initial, <- finals_of_initial.
Qed.

(** An example without beams is left as it is by a round. *)
Lemma step_example_dead e :
  ex_beams e = [] → step_example max_beam_size e = e.
Proof.
  intros Hnil. unfold step_example, expand_example, book.
  destruct e as [x0 g fx fr fl]. simpl in *. subst g.
  rewrite expand_group_nil. done.
Qed.

Lemma state_at_dead k m x :
  ex_beams (state_at max_beam_size k x) = [] →
  state_at max_beam_size (k + m) x = state_at max_beam_size k x.
Proof.
  intros Hnil. induction m as [|m IH].
  - by rewrite Nat.add_0_r.
  - rewrite Nat.add_succ_r.
    change (state_at max_beam_size (S (k + m)) x)
      with (step_example max_beam_size (state_at max_beam_size (k + m) x)).
    rewrite IH. by apply step_example_dead.
Qed.

(** The round boundaries of the search are the states [state_at]. *)
Lemma nsteps_exact xs k s :
  nsteps (step xs max_beam_size) k (initial_state xs) s →
  s = (beams_of (state_at max_beam_size k <$> xs),
       finals_of (state_at max_beam_size k <$> xs)).
Proof.
  revert s. induction k as [|k IH]; intros s Hs.
  - inv Hs. unfold initial_state.
    by rewrite <- beams_of_initial, <- finals_of_initial.
  - apply nsteps_inv_r in Hs as (s0 & Hs0 & Hstep).
    rewrite (IH _ Hs0) in Hstep. unfold step in Hstep. simpl in Hstep.
    destruct (state_at_constants max_beam_size k xs) as (Hys & _ & _).
    pose proof (round_exact max_beam_size _
                  (state_at_aligned max_beam_size k xs)) as Hround.
    assert (Hnext : step_example max_beam_size
                      <$> (state_at max_beam_size k <$> xs)
                    = state_at max_beam_size (S k) <$> xs)
      by (by rewrite <- list_fmap_compose).
    rewrite Hys, length_fmap, Hnext in Hround. rewrite Hround in Hstep.
    case_decide; [done|]. by injection Hstep as <-.
Qed.
End exact_facts.

(** ** More on [remove_one] *)


Section remove_one_more.
Context `{M : Model}.
Context (max_beam_size : nat).

Lemma length_tried x :
  length (tried max_beam_size x) = (max_beam_size `min` (length x - 1))%nat.
Proof.
  unfold tried. rewrite length_take.
  rewrite (Permutation_length (argsort_perm _)).
  rewrite length_seq, length_take, length_fmap, length_seq. lia.
Qed.

Lemma NoDup_tried x : NoDup (tried max_beam_size x).
Proof.
  unfold tried. eapply sublist_NoDup; [|apply sublist_take].
  rewrite argsort_perm. apply NoDup_seq.
Qed.

Lemma length_pool_from s g :
  length (pool_from max_beam_size s g)
  = sum_list ((λ b, max_beam_size `min` (length (beam_x b) - 1))%nat <$> g).
Proof.
  revert s. induction g as [|b g IH]; intros s; [done|].
  cbn [pool_from]. rewrite length_app, IH. unfold beam_pool.
  by rewrite length_fmap, length_tried.
Qed.



(** X2.  When [n_beams] counts more beams than [xs] holds, [remove_one]
    raises. *)
Theorem remove_one_overcount bs :
  (length (b_xs bs) < sum_list (b_n_beams bs))%nat →
  remove_one bs max_beam_size = None.
Proof.
  unfold remove_one. generalize (Beams [] [] [] []).
  assert (H : ∀ n_beams start new,
    (start ≤ length (b_xs bs))%nat →
    (length (b_xs bs) < start + sum_list n_beams)%nat →
    remove_one_loop (b_xs bs) (b_indices bs) (b_removed_indices bs)
      max_beam_size n_beams start new = None).
  { induction n_beams as [|nb n_beams IH]; intros start new Hle Hlt.
    - simpl in Hlt. lia.
    - simpl in Hlt. cbn [remove_one_loop].
      case_decide as Hz; [apply IH; [done|lia]|].
      destruct (example_coordinates (b_xs bs) max_beam_size start nb)
        as [cs|] eqn:Hcs; [|done].
      assert (Hin : (start + nb ≤ length (b_xs bs))%nat).
      { destruct (decide (start + nb ≤ length (b_xs bs))%nat); [done|].
        exfalso. unfold example_coordinates in Hcs.
        destruct (mapM (beam_coordinates (b_xs bs) max_beam_size)
                       (seq start nb)) as [css|] eqn:Hm; [|done].
        apply mapM_Some_1 in Hm.
        assert (Hi : seq start nb !! (length (b_xs bs) - start)%nat
                     = Some (length (b_xs bs))).
        { rewrite lookup_seq_lt by lia. f_equal. lia. }
        destruct (Forall2_lookup_l _ _ _ _ _ Hm Hi) as (c & _ & Hc).
        unfold beam_coordinates, order, onehot_grad, get_onehot_grad in Hc.
        rewrite !list_lookup_fmap, lookup_ge_None_2 in Hc; done. }
      cbn [mbind option_bind]. case_decide; [apply IH; lia|].
      destruct (mapM _ _); [|done]. cbn [mbind option_bind].
      apply IH; lia. }
  intros new Hlt. apply H; lia.
Qed.

(** X3.  The positions a beam offers to the pool ([order[i]] cut at
    [max_beam_size]) are distinct positions other than the last, as many
    as [max_beam_size] allows, and no position left out, the last
    apart, has a lower saliency than one offered. *)
Theorem beam_candidates_lowest xs i x :
  xs !! i = Some x →
  ∃ js, beam_coordinates xs max_beam_size i
        = Some ((λ j, (saliency x j, (i, j))) <$> js) ∧
        NoDup js ∧ length js = (max_beam_size `min` (length x - 1))%nat ∧
        Forall (λ j, S j < length x)%nat js ∧
        ∀ j j', j ∈ js → (S j' < length x)%nat → j' ∉ js →
                saliency x j ≤ saliency x j'.
Proof.
  intros Hx. exists (tried max_beam_size x).
  split; [exact (beam_coordinates_exact max_beam_size xs i (Beam x [] []) Hx)|].
  split; [apply NoDup_tried|]. split; [apply length_tried|].
  split; [apply Forall_forall; intros j; apply tried_lt|].
  intros j j' Hj Hj' Hout.
  set (l := take (length x - 1) (saliency x <$> seq 0 (length x))).
  assert (Hl : ∀ p, (S p < length x)%nat → l !!! p = saliency x p).
  { intros p Hp. apply list_lookup_total_correct. unfold l.
    rewrite lookup_take_lt, list_lookup_fmap, lookup_seq_lt by lia. done. }
  assert (Hlen : length l = (length x - 1)%nat).
  { unfold l. rewrite length_take, length_fmap, length_seq. lia. }
  pose proof (tried_lt _ _ _ Hj) as Hjlt.
  unfold tried in Hj, Hout. fold l in Hj, Hout.
  apply elem_of_take in Hj as (a & Ha & Hamax).
  assert (Hin : j' ∈ argsort l).
  { rewrite argsort_perm. apply elem_of_seq. lia. }
  apply list_elem_of_lookup in Hin as [b Hb].
  assert (Hab : (a < b)%nat).
  { destruct (decide (a < b)%nat); [done|]. exfalso. apply Hout.
    apply elem_of_take. exists b. split; [done|lia]. }
  pose proof (argsort_sorted l) as Hs.
  apply Sorted_StronglySorted in Hs; [|apply _].
  rewrite <- (Hl j), <- (Hl j') by done.
  eapply (StronglySorted_lookup_lt Z.le _ a b); [exact Hs| | |done].
  - by rewrite list_lookup_fmap, Ha.
  - by rewrite list_lookup_fmap, Hb.
Qed.
End remove_one_more.

(** ** More on [get_rawr] *)

Section get_rawr_more.
Context `{M : Model}.
Context (max_beam_size : nat).

(** X4.  The examples of a batch do not influence one another: what
    [get_rawr] returns for example [e] of a batch is what it returns for
    that sequence alone, which takes no more rounds. *)
Theorem get_rawr_batch_independent xs e x0 n m :
  xs !! e = Some x0 →
  ∃ R R1 fxs frs fx fr,
    get_rawr (rounds_bound xs + n) xs max_beam_size = Returned R fxs frs ∧
    get_rawr (rounds_bound [x0] + m) [x0] max_beam_size
    = Returned R1 [fx] [fr] ∧
    fxs !! e = Some fx ∧ frs !! e = Some fr ∧ (R1 ≤ R)%nat.
Proof.
  intros He.
  destruct (get_rawr_exact max_beam_size xs n) as (R & HR & HR0 & Hend & _).
  destruct (get_rawr_exact max_beam_size [x0] m)
    as (R1 & HR1 & _ & Hend1 & Hmid1).
  apply Forall_cons in Hend1 as [Hend1 _].
  eapply Forall_lookup_1 in Hend; [|exact He].
  assert (Hle : (R1 ≤ R)%nat).
  { destruct (decide (R1 ≤ R)%nat) as [|Hgt]; [done|]. exfalso.
    specialize (Hmid1 R ltac:(lia)).
    apply Exists_cons in Hmid1 as [Hx|Hx]; [done|].
    by apply Exists_nil in Hx. }
  assert (Hsame : state_at max_beam_size R x0 = state_at max_beam_size R1 x0).
  { replace R with (R1 + (R - R1))%nat by lia. by apply state_at_dead. }
  exists R, R1. do 4 eexists. split; [exact HR|]. split; [exact HR1|].
  rewrite !list_lookup_fmap, He. simpl. by rewrite Hsame.
Qed.
Lemma aligned_initial x : Forall aligned [Beam x (seq 0 (length x)) []].
Proof.
  constructor; [|done]. unfold aligned. simpl. by rewrite length_seq.
Qed.

(** In the first round every tried position of the original gives a
    candidate. *)
Lemma first_round_candidates x0 j :
  j ∈ tried max_beam_size x0 →
  ∃ b', b' ∈ expand_group max_beam_size [Beam x0 (seq 0 (length x0)) []] ∧
        beam_x b' = remove_at j x0.
Proof.
  intros Hj. set (b0 := Beam x0 (seq 0 (length x0)) []).
  assert (Hc : (0%nat, j) ∈ chosen max_beam_size 0 [b0]).
  { unfold chosen. rewrite take_ge.
    2:{ rewrite length_fmap, length_sorted, length_pool_from. simpl. lia. }
    apply list_elem_of_fmap. exists (saliency x0 j, (0%nat, j)).
    split; [done|]. rewrite sorted_perm. simpl. rewrite app_nil_r.
    apply list_elem_of_fmap. by exists j. }
  pose proof (expand_group_children max_beam_size [b0] (aligned_initial x0))
    as Hm.
  apply mapM_Some_1 in Hm. apply list_elem_of_lookup in Hc as [i Hi].
  destruct (Forall2_lookup_l _ _ _ _ _ Hm Hi) as (b' & Hb' & Hat).
  exists b'. split; [by eapply list_elem_of_lookup_2|].
  unfold child_at, child_of in Hat. simpl in Hat.
  destruct (seq 0 (length x0) !! j); [|done]. by injection Hat as <-.
Qed.

Lemma foldl_visit_found y0 g :
  ∀ e b, b ∈ g → predict (beam_x b) = y0 →
    (ex_final_length (foldl (visit_ex y0) e g) ≤ length (beam_x b))%nat.
Proof.
  induction g as [|b' g IH]; intros e b Hb Hp.
  - by apply elem_of_nil in Hb.
  - simpl. apply elem_of_cons in Hb as [->|Hb]; [|by apply IH].
    etrans; [apply foldl_visit_length_le|].
    unfold visit_ex, record_ex. rewrite decide_True by done.
    repeat (case_decide; simpl); lia.
Qed.

Lemma step_example_length_le e :
  (ex_final_length (step_example max_beam_size e) ≤ ex_final_length e)%nat.
Proof.
  unfold step_example, book, expand_example. simpl.
  etrans; [apply foldl_visit_length_le|done].
Qed.

Lemma state_at_length_le k m x :
  (ex_final_length (state_at max_beam_size (k + m) x)
   ≤ ex_final_length (state_at max_beam_size k x))%nat.
Proof.
  induction m as [|m IH]; [by rewrite Nat.add_0_r|].
  rewrite Nat.add_succ_r.
  change (state_at max_beam_size (S (k + m)) x)
    with (step_example max_beam_size (state_at max_beam_size (k + m) x)).
  etrans; [apply step_example_length_le|done].
Qed.

(** X5.  When one of the deletions that the first round tries on example
    [e] keeps its prediction, [get_rawr] returns for [e] reductions only:
    strict subsequences of the original with its prediction. *)
Theorem reduction_found xs e x0 j n :
  xs !! e = Some x0 → j ∈ tried max_beam_size x0 →
  predict (remove_at j x0) = predict x0 →
  ∃ R fxs frs fx,
    get_rawr (rounds_bound xs + n) xs max_beam_size = Returned R fxs frs ∧
    fxs !! e = Some fx ∧ fx ≠ [] ∧
    Forall (λ x, strict_subsequence x x0 ∧ predict x = predict x0) fx.
Proof.
  intros He Hj Hp.
  destruct (get_rawr_exact max_beam_size xs n) as (R & HR & HR0 & _ & _).
  exists R. do 2 eexists. exists (ex_final_xs (state_at max_beam_size R x0)).
  split; [exact HR|]. split; [by rewrite !list_lookup_fmap, He|].
  destruct (state_at_inv max_beam_size R x0) as [Hx0 [_ Hfin _ _ _]].
  destruct Hfin as [Hrec Hlen Hpred _ Hne Hseed]. rewrite Hx0 in *.
  split; [done|].
  assert (Hfl : (ex_final_length (state_at max_beam_size R x0)
                 < length x0)%nat).
  { replace R with (1 + (R - 1))%nat by lia.
    eapply Nat.le_lt_trans; [apply state_at_length_le|].
    destruct (first_round_candidates x0 j Hj) as (b' & Hb' & Hbx).
    eapply Nat.le_lt_trans.
    - change (state_at max_beam_size 1 x0)
        with (step_example max_beam_size (initial_example x0)).
      unfold step_example, book, expand_example. simpl.
      apply (foldl_visit_found _ _ _ b' Hb'). by rewrite Hbx.
    - rewrite Hbx. pose proof (tried_lt _ _ _ Hj).
      pose proof (length_remove_at j x0). lia. }
  apply Forall_forall. intros x Hx.
  eapply Forall_forall in Hlen; [|exact Hx].
  eapply Forall_forall in Hpred; [|exact Hx]. split; [|done].
  apply sublist_shorter_strict; [|lia].
  apply list_elem_of_lookup in Hx as [i Hi].
  destruct (Forall2_lookup_l _ _ _ _ _ Hrec Hi) as (r & _ & idx & Hd).
  by destruct Hd as [_ _ _ ? _].
Qed.
Lemma state_at_step k x :
  state_at max_beam_size (S k) x
  = book (expand_example max_beam_size (state_at max_beam_size k x)).
Proof. done. Qed.

Lemma state_at_candidates k x :
  Forall (candidate max_beam_size k x)
         (expand_group max_beam_size
            (ex_beams (state_at max_beam_size k x))) ∧
  (length (expand_group max_beam_size
             (ex_beams (state_at max_beam_size k x))) ≤ max_beam_size)%nat.
Proof.
  destruct (state_at_inv max_beam_size k x) as [Hx0 Hinv].
  assert (Hal : Forall aligned (ex_beams (state_at max_beam_size k x))).
  { destruct Hinv as [Hlive _ _ _ _].
    eapply Forall_impl; [exact Hlive|]. intros b [Hd _].
    by eapply derived_aligned. }
  split; [|by destruct (expands_exact max_beam_size _ Hal)].
  rewrite <- Hx0 at 1.
  apply (expands_candidates max_beam_size k _
           (expand_example max_beam_size (state_at max_beam_size k x)) Hinv).
  unfold expanded, expand_example. simpl.
  do 4 (split; [done|]). by apply expands_exact.
Qed.

(** Visiting candidates of one length [c], shorter than what is recorded:
    either nothing changes, or the result set is started anew and holds
    at most one sequence per candidate visited. *)
Lemma foldl_visit_size y0 c e0 g :
  ∀ e n,
    Forall (λ b, length (beam_x b) = c ∧ (c < ex_final_length e0)%nat) g →
    (ex_final_xs e = ex_final_xs e0 ∧
     ex_final_length e = ex_final_length e0) ∨
    (ex_final_length e = c ∧ (length (ex_final_xs e) ≤ n)%nat) →
    (ex_final_xs (foldl (visit_ex y0) e g) = ex_final_xs e0 ∧
     ex_final_length (foldl (visit_ex y0) e g) = ex_final_length e0) ∨
    (ex_final_length (foldl (visit_ex y0) e g) = c ∧
     (length (ex_final_xs (foldl (visit_ex y0) e g)) ≤ n + length g)%nat).
Proof.
  induction g as [|b g IH]; intros e n Hg He.
  - simpl. rewrite Nat.add_0_r. done.
  - apply Forall_cons in Hg as [[Hb Hc] Hg]. simpl.
    replace (n + S (length g))%nat with (S n + length g)%nat by lia.
    apply IH; [done|].
    unfold visit_ex, record_ex.
    destruct He as [[Hfx Hfl]|[Hfl Hn]];
      repeat (case_decide; simpl); rewrite ?length_app; simpl;
      first [left; split; [done|lia] | right; split; lia | lia | idtac].
    all: try (left; by split). all: try (right; split; lia).
Qed.

Lemma state_at_size k x :
  (length x ≤ ex_final_length (state_at max_beam_size k x) + k)%nat ∧
  (length (ex_final_xs (state_at max_beam_size k x))
   ≤ 1 `max` max_beam_size)%nat.
Proof.
  induction k as [|k [IH1 IH2]]; [simpl; lia|].
  destruct (state_at_candidates k x) as [Hcand Hlen].
  rewrite state_at_step. unfold book, expand_example. simpl.
  set (e := state_at max_beam_size k x) in *.
  set (g := expand_group max_beam_size (ex_beams e)) in *.
  destruct (foldl_visit_size (predict (ex_x0 e)) (length x - S k)%nat
              (with_beams e g) g (with_beams e g) 0) as [[Hfx Hfl]|[Hfl Hn]].
  - eapply Forall_impl; [exact Hcand|]. simpl.
    intros b (_ & Hb & _). lia.
  - by left.
  - rewrite Hfx, Hfl. simpl. lia.
  - rewrite Hfl. lia.
Qed.

(** X6.  [get_rawr] returns at most [max_beam_size] reductions per
    example (or the one original), and for every example exactly as many
    removed-index lists as sequences. *)
Theorem results_bounded xs n :
  ∃ R fxs frs,
    get_rawr (rounds_bound xs + n) xs max_beam_size = Returned R fxs frs ∧
    Forall2 (λ fx fr, (1 ≤ length fx ≤ 1 `max` max_beam_size)%nat ∧
                      length fr = length fx)
            fxs frs.
Proof.
  destruct (get_rawr_exact max_beam_size xs n) as (R & HR & _).
  exists R. do 2 eexists. split; [exact HR|].
  apply Forall2_fmap, Forall_Forall2_diag, Forall_fmap, Forall_forall.
  intros x _. simpl. destruct (state_at_size R x) as [_ Hsize].
  destruct (state_at_inv max_beam_size R x) as [_ [_ Hfin _ _ _]].
  destruct Hfin as [Hrec _ _ _ Hne _].
  apply Forall2_length in Hrec. split; [|done].
  destruct (ex_final_xs (state_at max_beam_size R x)); [done|].
  simpl in *. lia.
Qed.
End get_rawr_more.

(** ** Removed positions, and inputs with nothing to remove *)

(** The last index of a beam is the last position of the original, and
    no removed position is that one. *)
Definition keeps_terminator (x0 : list token) (b : beam) : Prop :=
  last (beam_indices b) = last (seq 0 (length x0)) ∧
  Forall (λ p, (S p < length x0)%nat) (beam_removed b).

Lemma child_keeps_terminator x0 b j b' :
  derived x0 b → keeps_terminator x0 b →
  (S j < length (beam_x b))%nat → child_of b j = Some b' →
  keeps_terminator x0 b'.
Proof.
  intros Hd [Hlast Hrem] Hj Hc.
  pose proof (derived_aligned _ _ Hd) as Hal. unfold aligned in Hal.
  unfold child_of in Hc.
  destruct (beam_indices b !! j) as [p|] eqn:Hp; [|done].
  injection Hc as <-. split; simpl.
  - rewrite last_remove_at by lia. done.
  - apply Forall_app. split; [done|]. constructor; [|done].
    destruct (last (beam_indices b)) as [q|] eqn:Hq.
    + assert (Hpq : (p < q)%nat).
      { rewrite last_lookup in Hq.
        eapply (StronglySorted_lookup_lt lt); [apply Hd|exact Hp|exact Hq|].
        lia. }
      symmetry in Hlast. rewrite last_lookup in Hlast.
      apply lookup_seq in Hlast. lia.
    + rewrite last_lookup in Hq. apply lookup_ge_None in Hq. lia.
Qed.

Section get_rawr_edges.
Context `{M : Model}.
Context (max_beam_size : nat).

Lemma foldl_visit_removed (P : list nat → Prop) y0 g :
  ∀ e, Forall (λ b, P (beam_removed b)) g →
       Forall P (ex_final_removed e) →
       Forall P (ex_final_removed (foldl (visit_ex y0) e g)).
Proof.
  induction g as [|b g IH]; intros e Hg He; [done|].
  apply Forall_cons in Hg as [Hb Hg]. simpl. apply IH; [done|].
  unfold visit_ex, record_ex. repeat case_decide; simpl; try done.
  - by constructor.
  - apply Forall_app. split; [done|]. by constructor.
Qed.

Lemma state_at_terminator k x :
  Forall (keeps_terminator x) (ex_beams (state_at max_beam_size k x)) ∧
  Forall (Forall (λ p, (S p < length x)%nat))
         (ex_final_removed (state_at max_beam_size k x)).
Proof.
  induction k as [|k [IHb IHf]].
  - simpl. split; repeat constructor.
  - destruct (state_at_inv max_beam_size k x) as [Hx0 [Hlive _ _ _ _]].
    rewrite Hx0 in Hlive.
    assert (Hal : Forall aligned (ex_beams (state_at max_beam_size k x))).
    { eapply Forall_impl; [exact Hlive|]. intros b [Hd _].
      by eapply derived_aligned. }
    destruct (expands_exact max_beam_size _ Hal) as [_ Hch].
    assert (Hg : Forall (keeps_terminator x)
                   (expand_group max_beam_size
                      (ex_beams (state_at max_beam_size k x)))).
    { eapply Forall_impl; [exact Hch|]. simpl.
      intros b' (b & j & Hb & _ & Hj & Hc).
      rewrite Forall_forall in Hlive, IHb.
      destruct (Hlive b Hb) as [Hd _].
      by eapply child_keeps_terminator; [exact Hd|apply IHb|exact Hj|]. }
    change (state_at max_beam_size (S k) x)
      with (book (expand_example max_beam_size (state_at max_beam_size k x))).
    unfold book, expand_example. simpl. split.
    + apply Forall_forall. intros b Hb.
      apply list_elem_of_filter in Hb as [_ Hb].
      rewrite Forall_forall in Hg. by apply Hg.
    + apply foldl_visit_removed; [|done].
      eapply Forall_impl; [exact Hg|]. by intros b [_ ?].
Qed.

(** X7.  Every list of removed positions that [get_rawr] returns for an
    example has no repetition and never holds the last position of the
    original: the final token is not removed. *)
Theorem removed_never_last xs n :
  ∃ R fxs frs,
    get_rawr (rounds_bound xs + n) xs max_beam_size = Returned R fxs frs ∧
    Forall2 (λ x0 fr,
               Forall (λ r, NoDup r ∧
                            Forall (λ p, (S p < length x0)%nat) r) fr)
            xs frs.
Proof.
  destruct (get_rawr_exact max_beam_size xs n) as (R & HR & _).
  exists R. do 2 eexists. split; [exact HR|].
  rewrite <- list_fmap_compose. apply Forall2_fmap_r, Forall_Forall2_diag.
  apply Forall_forall. intros x _. simpl.
  destruct (state_at_terminator R x) as [_ Hf].
  destruct (state_at_inv max_beam_size R x) as [Hx0 [_ Hfin _ _ _]].
  destruct Hfin as [Hrec _ _ _ _ _].
  apply Forall_forall. intros r Hr. split.
  - apply list_elem_of_lookup in Hr as [i Hi].
    destruct (Forall2_lookup_r _ _ _ _ _ Hrec Hi) as (y & _ & idx & Hd).
    destruct Hd as [_ Hpart _ _ _]. simpl in Hpart.
    assert (Hnd : NoDup (r ++ idx)) by (rewrite Hpart; apply NoDup_seq).
    by apply NoDup_app in Hnd as [? _].
  - rewrite Forall_forall in Hf. by apply Hf.
Qed.


End get_rawr_edges.

(** ** The size of the batch *)

Lemma sum_list_bounded m l :
  Forall (λ n, (n ≤ m)%nat) l → (sum_list l ≤ m * length l)%nat.
Proof.
  induction 1 as [|n l Hn _ IH]; simpl; [lia|].
  cbn [sum_list sum_list_with] in *. lia.
Qed.

Section batch_size.
Context `{M : Model}.
Context (max_beam_size : nat).

Lemma state_at_beams_le k x :
  (length (ex_beams (state_at max_beam_size (S k) x)) ≤ max_beam_size)%nat.
Proof.
  destruct (state_at_candidates max_beam_size k x) as [_ Hlen].
  change (state_at max_beam_size (S k) x)
    with (book (expand_example max_beam_size (state_at max_beam_size k x))).
  unfold book, expand_example. simpl.
  etrans; [apply length_filter|done].
Qed.

(** X9.  From the second pass of the loop on, the batch that is handed
    to [remove_one] and to the model holds at most [max_beam_size] beams
    of each example, hence at most [max_beam_size] times the number of
    examples in all. *)
Theorem batch_bounded xs k s :
  nsteps (step xs max_beam_size) (S k) (initial_state xs) s →
  length (b_n_beams s.1) = length xs ∧
  Forall (λ n, (n ≤ max_beam_size)%nat) (b_n_beams s.1) ∧
  (length (b_xs s.1) ≤ max_beam_size * length xs)%nat.
Proof.
  intros Hs. rewrite (nsteps_exact max_beam_size _ _ _ Hs). simpl.
  assert (Hn : Forall (λ n, (n ≤ max_beam_size)%nat)
                 (length <$> (ex_beams
                    <$> (state_at max_beam_size (S k) <$> xs)))).
  { rewrite <- !list_fmap_compose. apply Forall_fmap, Forall_forall.
    intros x _. simpl. apply state_at_beams_le. }
  split; [by rewrite !length_fmap|]. split; [done|].
  rewrite length_fmap, <- sum_list_lengths.
  etrans; [apply sum_list_bounded, Hn|].
  by rewrite !length_fmap.
Qed.
End batch_size.

(** ** [main]: the checkpoint

    [main] cuts the test set into batches, reduces each batch with
    [get_rawr] and beam size 5, scores the originals and the reductions
    with the model, and appends one list of entries per example to the
    checkpoint that is pickled at the end.  The batches are taken as the
    iterator and the first call of the converter deliver them; the class
    scores [model.predict(.., softmax=True)] of a sequence and the second
    call of the converter (on the flattened reductions) are parameters,
    and so is [gpu], the value of [--gpu]: the converter leaves the
    arrays in host memory for a negative device and moves them to that
    GPU otherwise. *)

Record entry := Entry {
  original_input : list token;
  reduced_input : list token;
  original_prediction : nat;
  reduced_prediction : nat;
  original_scores : list score;
  reduced_scores : list score;
  removed_indices : list nat;
  entry_label : label
}.

Record batch := Batch {
  batch_xs : list (list token);
  batch_ys : list label
}.

(** How a part of [main] ends: with a value, with an exception, or not
    within the rounds allowed to [get_rawr]. *)
Inductive run (A : Type) :=
  | Finished (a : A)
  | Failed
  | Unfinished.
Arguments Finished {A} a.
Arguments Failed {A}.
Arguments Unfinished {A}.

(** [np.argmax] of one row: the first position of the greatest score;
    an empty row is an error. *)
Fixpoint argmax_from (best : score) (best_i i : nat) (row : list score)
    : nat :=
  match row with
  | [] => best_i
  | s :: row' =>
    if decide (best < s) then argmax_from s i (S i) row'
    else argmax_from best best_i (S i) row'
  end.

Definition argmax (row : list score) : option nat :=
  match row with
  | [] => None
  | s :: row' => Some (argmax_from s 0 1 row')
  end.

Definition main_max_beam_size : nat := 5.

(** [cupy.get_array_module] of the arrays [xs]: [cupy] when one is on a
    GPU, [numpy] otherwise (also when there is no array at all).  Only
    [cupy] has [asnumpy]. *)
Inductive array_module :=
  | numpy
  | cupy.

Definition get_array_module (gpu : Z) (xs : list (list token))
    : array_module :=
  match xs with
  | [] => numpy
  | _ :: _ => if decide (0 ≤ gpu) then cupy else numpy
  end.

Section main.
Context `{M : Model}.
Context (softmax : list token → list score).
Context (converter : list (list token) → list (list token)).
Context (gpu : Z).

(** The body of [for example_idx in range(len(xs))]: the entries of one
    example, read at the positions [start .. start + n_finals[e] - 1] of
    the flattened lists. *)
Definition example_entries (xs : list (list token)) (labels : list label)
    (ss_0 : list (list score)) (ys_0 : list nat)
    (reduced_xs : list (list token))
    (ss_1 : list (list score)) (ys_1 : list nat)
    (removed : list (list nat)) (n_finals : list nat)
    (start example_idx : nat) : option (list entry) :=
  oi ← xs !! example_idx;
  op ← ys_0 !! example_idx;
  oos ← ss_0 !! example_idx;
  lab ← labels !! example_idx;
  n ← n_finals !! example_idx;
  mapM (λ i,
          ri ← reduced_xs !! i;
          rp ← ys_1 !! i;
          rs ← ss_1 !! i;
          rr ← removed !! i;
          Some (Entry oi ri op rp oos rs rr lab))
       (seq start n).

(** The body of the loop over the batches, after the test on
    [batch_idx]: the lists of entries that one batch adds to the
    checkpoint.  With [xp] being [numpy], [xp.asnumpy] on line 179 is an
    AttributeError.  [start] is set to 0 before the loop over the
    examples and is not assigned again. *)
Definition checkpoint_batch (fuel : nat) (b : batch)
    : run (list (list entry)) :=
  let xs := batch_xs b in
  match get_rawr fuel xs main_max_beam_size with
  | Raised => Failed
  | OutOfFuel => Unfinished
  | Returned _ reduced removed =>
    let xp := get_array_module gpu xs in
    let n_finals := length <$> reduced in
    let reduced_xs := converter (concat reduced) in
    let removed_indices := concat removed in
    match xp with
    | numpy => Failed
    | cupy =>
      let ss_0 := softmax <$> xs in
      let ss_1 := softmax <$> reduced_xs in
      match mapM argmax ss_0, mapM argmax ss_1 with
      | Some ys_0, Some ys_1 =>
        let start := 0%nat in
        match mapM (example_entries xs (batch_ys b) ss_0 ys_0 reduced_xs
                      ss_1 ys_1 removed_indices n_finals start)
                   (seq 0 (length xs)) with
        | Some c => Finished c
        | None => Failed
        end
      | _, _ => Failed
      end
    end
  end.

(** The loop over the batches; the value is the checkpoint that is
    pickled. *)
Fixpoint main_loop (fuel : nat) (batches : list batch) (batch_idx : nat)
    (checkpoint : list (list entry)) : run (list (list entry)) :=
  match batches with
  | [] => Finished checkpoint
  | b :: rest =>
    if decide (10 < batch_idx)%nat then Finished checkpoint
    else
      match checkpoint_batch fuel b with
      | Finished c => main_loop fuel rest (S batch_idx) (checkpoint ++ c)
      | Failed => Failed
      | Unfinished => Unfinished
      end
  end.

Definition main (fuel : nat) (batches : list batch)
    : run (list (list entry)) :=
  main_loop fuel batches 0 [].
End main.

Lemma lookup_concat_length {A} (l : list (list A)) e x :
  l !! e = Some x → (length x ≤ length (concat l))%nat.
Proof.
  revert e. induction l as [|y l IH]; intros e He; [done|].
  simpl. rewrite length_app. destruct e as [|e]; simpl in He.
  - injection He as ->. lia.
  - specialize (IH _ He). lia.
Qed.

Section main_facts.
Context `{M : Model}.
Context (softmax : list token → list score).
Context (converter : list (list token) → list (list token)).
Context (gpu : Z).

Lemma get_array_module_cupy xs :
  0 ≤ gpu → xs ≠ [] → get_array_module gpu xs = cupy.
Proof.
  intros Hgpu Hxs. destruct xs; [done|]. simpl. by rewrite decide_True.
Qed.

Lemma argmax_rows (l : list (list token)) :
  (∀ x, softmax x ≠ []) →
  ∃ ys, mapM argmax (softmax <$> l) = Some ys ∧ length ys = length l.
Proof.
  intros Hne.
  destruct (mapM_is_Some_2 argmax (softmax <$> l)) as [ys Hys].
  - apply Forall_fmap, Forall_forall. intros x _. simpl.
    specialize (Hne x). unfold argmax. destruct (softmax x); [done|eauto].
  - exists ys. split; [done|].
    apply length_mapM in Hys. by rewrite length_fmap in Hys.
Qed.

Lemma example_entries_Some xs labels ss_0 ys_0 rxs ss_1 ys_1 removed
    n_finals start e n :
  (e < length xs)%nat → (length xs ≤ length ys_0)%nat →
  (length xs ≤ length ss_0)%nat → (length xs ≤ length labels)%nat →
  n_finals !! e = Some n →
  (start + n ≤ length rxs)%nat → (start + n ≤ length ys_1)%nat →
  (start + n ≤ length ss_1)%nat → (start + n ≤ length removed)%nat →
  ∃ es, example_entries xs labels ss_0 ys_0 rxs ss_1 ys_1 removed
          n_finals start e = Some es ∧ length es = n.
Proof.
  intros He H1 H2 H3 Hn H4 H5 H6 H7. unfold example_entries.
  destruct (lookup_lt_is_Some_2 xs e) as [oi ->]; [lia|].
  destruct (lookup_lt_is_Some_2 ys_0 e) as [op ->]; [lia|].
  destruct (lookup_lt_is_Some_2 ss_0 e) as [oos ->]; [lia|].
  destruct (lookup_lt_is_Some_2 labels e) as [lab ->]; [lia|].
  rewrite Hn. cbn [mbind option_bind].
  match goal with |- ∃ es, mapM ?f ?l = _ ∧ _ =>
    destruct (mapM_is_Some_2 f l) as [es Hes] end.
  - apply Forall_forall. intros i Hi. apply elem_of_seq in Hi. simpl.
    destruct (lookup_lt_is_Some_2 rxs i) as [ri ->]; [lia|].
    destruct (lookup_lt_is_Some_2 ys_1 i) as [rp ->]; [lia|].
    destruct (lookup_lt_is_Some_2 ss_1 i) as [rs ->]; [lia|].
    destruct (lookup_lt_is_Some_2 removed i) as [rr ->]; [lia|].
    simpl. eauto.
  - exists es. split; [done|].
    apply length_mapM in Hes. by rewrite length_seq in Hes.
Qed.

Lemma checkpoint_batch_returns b fuel :
  0 ≤ gpu → batch_xs b ≠ [] →
  (∀ x, softmax x ≠ []) →
  (∀ l, length (converter l) = length l) →
  (length (batch_xs b) ≤ length (batch_ys b))%nat →
  (rounds_bound (batch_xs b) ≤ fuel)%nat →
  ∃ R fxs frs c,
    get_rawr fuel (batch_xs b) main_max_beam_size = Returned R fxs frs ∧
    checkpoint_batch softmax converter gpu fuel b = Finished c ∧
    length c = length (batch_xs b) ∧
    Forall2 (λ fx es, length es = length fx) fxs c.
Proof.
  intros Hgpu Hne Hsm Hconv Hlab Hfuel.
  replace fuel with (rounds_bound (batch_xs b)
                     + (fuel - rounds_bound (batch_xs b)))%nat by lia.
  generalize (fuel - rounds_bound (batch_xs b))%nat. clear Hfuel.
  intros n. set (xs := batch_xs b) in *.
  destruct (get_rawr_exact main_max_beam_size xs n) as (R & HR & _).
  set (exs := state_at main_max_beam_size R <$> xs) in *.
  assert (Hfin : ∀ e ex, exs !! e = Some ex →
            length (ex_final_removed ex) = length (ex_final_xs ex)).
  { intros e ex Hex. unfold exs in Hex.
    apply list_lookup_fmap_Some in Hex as (x & -> & _).
    destruct (state_at_inv main_max_beam_size R x) as [_ [_ Hfin _ _ _]].
    destruct Hfin as [Hrec _ _ _ _ _]. symmetry.
    by eapply Forall2_length. }
  exists R, (ex_final_xs <$> exs), (ex_final_removed <$> exs).
  unfold checkpoint_batch. fold xs. rewrite HR.
  rewrite get_array_module_cupy by done.
  destruct (argmax_rows xs Hsm) as (ys_0 & -> & Hys_0).
  destruct (argmax_rows (converter (concat (ex_final_xs <$> exs))) Hsm)
    as (ys_1 & -> & Hys_1).
  cbv zeta.
  match goal with |- context [mapM ?f (seq 0 (length xs))] =>
    set (body := f) end.
  assert (Hbody : ∀ e ex, exs !! e = Some ex →
            ∃ es, body e = Some es ∧
                  length es = length (ex_final_xs ex)).
  { intros e ex Hex. unfold body.
    apply example_entries_Some.
    - apply lookup_lt_Some in Hex. unfold exs in Hex.
      by rewrite length_fmap in Hex.
    - lia.
    - by rewrite length_fmap.
    - done.
    - by rewrite !list_lookup_fmap, Hex.
    - rewrite Hconv. simpl.
      apply (lookup_concat_length _ e). by rewrite list_lookup_fmap, Hex.
    - rewrite Hys_1, Hconv. simpl.
      apply (lookup_concat_length _ e). by rewrite list_lookup_fmap, Hex.
    - rewrite length_fmap, Hconv. simpl.
      apply (lookup_concat_length _ e). by rewrite list_lookup_fmap, Hex.
    - simpl. rewrite <- (Hfin _ _ Hex).
      apply (lookup_concat_length _ e). by rewrite list_lookup_fmap, Hex. }
  destruct (mapM_is_Some_2 body (seq 0 (length xs))) as [c Hc].
  { apply Forall_forall. intros e He. apply elem_of_seq in He. simpl.
    destruct (lookup_lt_is_Some_2 exs e) as [ex Hex].
    { unfold exs. rewrite length_fmap. lia. }
    destruct (Hbody _ _ Hex) as (es & -> & _). eauto. }
  rewrite Hc. exists c. split; [done|]. split; [done|].
  pose proof (length_mapM _ _ _ Hc) as Hlen. rewrite length_seq in Hlen.
  split; [done|].
  apply Forall2_same_length_lookup_2.
  { rewrite length_fmap. unfold exs. by rewrite length_fmap. }
  intros e fx es Hfx Hes.
  apply list_lookup_fmap_Some in Hfx as (ex & -> & Hex).
  destruct (Hbody _ _ Hex) as (es' & Hes' & <-).
  apply mapM_Some_1 in Hc.
  destruct (Forall2_lookup_r _ _ _ _ _ Hc Hes) as (e' & He' & Hbe).
  apply lookup_seq in He' as [-> _]. simpl in Hbe. congruence.
Qed.

(** X10.  On a GPU ([0 ≤ gpu]) and for a batch that is not empty, when
    the model scores every sequence with at least one class, the
    converter hands back as many sequences as it is given and every
    example has a label, the body of the batch loop of [main] raises
    nothing: it adds one list of entries per example, holding as many
    entries as [get_rawr] returned reductions for that example. *)
Theorem checkpoint_batch_shape b n :
  0 ≤ gpu → batch_xs b ≠ [] →
  (∀ x, softmax x ≠ []) →
  (∀ l, length (converter l) = length l) →
  (length (batch_xs b) ≤ length (batch_ys b))%nat →
  ∃ R fxs frs c,
    get_rawr (rounds_bound (batch_xs b) + n) (batch_xs b) main_max_beam_size
    = Returned R fxs frs ∧
    checkpoint_batch softmax converter gpu (rounds_bound (batch_xs b) + n) b
    = Finished c ∧
    length c = length (batch_xs b) ∧
    Forall2 (λ fx es, length es = length fx) fxs c.
Proof.
  intros Hgpu Hne Hsm Hconv Hlab.
  apply checkpoint_batch_returns; [done..|lia].
Qed.

(** X11.  Entry [k] of ANY example of a batch is read at position [k] of
    the flattened lists of reductions and of removed positions: [start]
    is never advanced.  So, the converter being the identity, while [k]
    is below the number of reductions of the first example of the batch,
    the entry pairs the original of example [e] with a reduction of the
    first example. *)
Theorem entries_read_from_front fuel b R fxs frs c e es k en :
  get_rawr fuel (batch_xs b) main_max_beam_size = Returned R fxs frs →
  checkpoint_batch softmax converter gpu fuel b = Finished c →
  c !! e = Some es → es !! k = Some en →
  batch_xs b !! e = Some (original_input en) ∧
  batch_ys b !! e = Some (entry_label en) ∧
  converter (concat fxs) !! k = Some (reduced_input en) ∧
  concat frs !! k = Some (removed_indices en) ∧
  original_scores en = softmax (original_input en) ∧
  reduced_scores en = softmax (reduced_input en) ∧
  (∀ fx0, (∀ l, converter l = l) → fxs !! 0%nat = Some fx0 →
          (k < length fx0)%nat → fx0 !! k = Some (reduced_input en)).
Proof.
  intros HR Hc Hes Hen. unfold checkpoint_batch in Hc. rewrite HR in Hc.
  cbv zeta in Hc.
  destruct (get_array_module gpu (batch_xs b)); [done|].
  destruct (mapM argmax (softmax <$> batch_xs b)) as [ys_0|]; [|done].
  destruct (mapM argmax (softmax <$> converter (concat fxs)))
    as [ys_1|]; [|done].
  cbv zeta in Hc.
  match type of Hc with context [mapM ?f ?l] =>
    destruct (mapM f l) as [c'|] eqn:Hm; [|done] end.
  injection Hc as ->. apply mapM_Some_1 in Hm.
  destruct (Forall2_lookup_r _ _ _ _ _ Hm Hes) as (e' & He' & Hbody).
  apply lookup_seq in He' as [-> _]. simpl in Hbody.
  unfold example_entries in Hbody.
  destruct (batch_xs b !! e) as [oi|] eqn:Hoi; [|done].
  destruct (ys_0 !! e) as [op|]; [|done].
  destruct ((softmax <$> batch_xs b) !! e) as [oos|] eqn:Hoos; [|done].
  destruct (batch_ys b !! e) as [lab|]; [|done].
  destruct ((length <$> fxs) !! e) as [nf|]; [|done].
  cbn [mbind option_bind] in Hbody. apply mapM_Some_1 in Hbody.
  destruct (Forall2_lookup_r _ _ _ _ _ Hbody Hen) as (i & Hi & Hentry).
  apply lookup_seq in Hi as [-> _]. simpl in Hentry.
  destruct (converter (concat fxs) !! k) as [ri|] eqn:Hri; [|done].
  destruct (ys_1 !! k) as [rp|]; [|done].
  destruct ((softmax <$> converter (concat fxs)) !! k) as [rs|] eqn:Hrs;
    [|done].
  destruct (concat frs !! k) as [rr|]; [|done].
  injection Hentry as <-. simpl.
  rewrite list_lookup_fmap in Hrs. rewrite Hri in Hrs. injection Hrs as <-.
  rewrite list_lookup_fmap, Hoi in Hoos. injection Hoos as <-.
  do 6 (split; [congruence|]).
  intros fx0 Hid H0 Hk. rewrite Hid in Hri.
  destruct fxs as [|fx fxs']; [done|]. injection H0 as ->.
  simpl in Hri. by rewrite lookup_app_l in Hri.
Qed.

Lemma main_loop_only_first fuel batches :
  ∀ i cp,
    main_loop softmax converter gpu fuel batches i cp
    = main_loop softmax converter gpu fuel (take (11 - i) batches) i cp.
Proof.
  induction batches as [|b rest IH]; intros i cp.
  - by rewrite take_nil.
  - destruct (decide (10 < i)%nat) as [Hi|Hi].
    + replace (11 - i)%nat with 0%nat by lia. simpl.
      by rewrite decide_True.
    + replace (11 - i)%nat with (S (10 - i))%nat by lia.
      cbn [take main_loop]. rewrite !decide_False by done.
      destruct (checkpoint_batch softmax converter gpu fuel b); [|done..].
      rewrite IH. by replace (11 - S i)%nat with (10 - i)%nat by lia.
Qed.

Lemma main_loop_finishes fuel batches :
  0 ≤ gpu →
  (∀ x, softmax x ≠ []) →
  (∀ l, length (converter l) = length l) →
  Forall (λ b, batch_xs b ≠ [] ∧
               (rounds_bound (batch_xs b) ≤ fuel)%nat ∧
               (length (batch_xs b) ≤ length (batch_ys b))%nat) batches →
  ∀ i cp, (i + length batches ≤ 11)%nat →
    ∃ cp', main_loop softmax converter gpu fuel batches i cp = Finished cp' ∧
           length cp'
           = (length cp + sum_list ((length ∘ batch_xs) <$> batches))%nat.
Proof.
  intros Hgpu Hsm Hconv.
  induction 1 as [|b rest (Hb0 & Hb1 & Hb2) _ IH]; intros i cp Hi.
  - exists cp. split; [done|]. simpl. lia.
  - simpl in Hi. cbn [main_loop]. rewrite decide_False by lia.
    destruct (checkpoint_batch_returns b fuel Hgpu Hb0 Hsm Hconv Hb2 Hb1)
      as (_ & _ & _ & c & _ & -> & Hc & _).
    destruct (IH (S i) (cp ++ c)) as (cp' & -> & Hcp'); [lia|].
    exists cp'. split; [done|]. rewrite Hcp', length_app, Hc.
    rewrite fmap_cons. cbn [sum_list sum_list_with]. simpl. lia.
Qed.

(** X12.  [main] works on the first eleven batches of the test set only:
    whatever follows them changes nothing in the checkpoint, and is not
    even reduced. *)
Theorem main_first_batches fuel batches :
  main softmax converter gpu fuel batches
  = main softmax converter gpu fuel (take 11 batches).
Proof. unfold main. by rewrite main_loop_only_first. Qed.

(** X13.  On a GPU ([0 ≤ gpu]), when the model scores every sequence
    with at least one class, the converter keeps the number of
    sequences, and the first eleven batches are not empty and have a
    label for every example, [main] raises nothing, and its checkpoint
    holds one list of entries for every example of the first eleven
    batches. *)
Theorem main_finishes fuel batches :
  0 ≤ gpu →
  (∀ x, softmax x ≠ []) →
  (∀ l, length (converter l) = length l) →
  Forall (λ b, batch_xs b ≠ [] ∧
               (rounds_bound (batch_xs b) ≤ fuel)%nat ∧
               (length (batch_xs b) ≤ length (batch_ys b))%nat)
         (take 11 batches) →
  ∃ cp, main softmax converter gpu fuel batches = Finished cp ∧
        length cp
        = sum_list ((length ∘ batch_xs) <$> take 11 batches).
Proof.
  intros Hgpu Hsm Hconv Hok. unfold main. rewrite main_loop_only_first.
  destruct (main_loop_finishes fuel (take (11 - 0) batches) Hgpu Hsm Hconv
              Hok 0%nat []) as (cp & Hcp & Hlen).
  { rewrite length_take. lia. }
  exists cp. split; [exact Hcp|]. by rewrite Hlen.
Qed.

End main_facts.

(** ** What the search has discovered

    The candidates examined for an example, round after round, and the
    place of the recorded results among them. *)

(** The entries of the flat batch that belong to example [e]: those at
    [start .. start + n_beams[e] - 1], [start] being the sum of the
    counts of the examples before it. *)
Definition slice (bs : beams) (e : nat) : list (list token) :=
  take (default 0%nat (b_n_beams bs !! e))
       (drop (sum_list (take e (b_n_beams bs))) (b_xs bs)).

(** [found xs max_beam_size k e y]: in one of the first [k] rounds of
    [get_rawr xs max_beam_size], [remove_one] made the candidate [y] for
    example [e], and the model gives [y] the prediction of the
    original. *)
Definition found `{M : Model} (xs : list (list token))
    (max_beam_size k e : nat) (y : list token) : Prop :=
  ∃ j s bs1 x0,
    (j < k)%nat ∧ nsteps (step xs max_beam_size) j (initial_state xs) s ∧
    remove_one s.1 max_beam_size = Some bs1 ∧ y ∈ slice bs1 e ∧
    xs !! e = Some x0 ∧ predict y = predict x0.

(** [x] is the original [x0] of example [e] or one of the candidates
    found for it in the first [k] rounds, and neither the original nor
    any candidate found in these rounds is shorter. *)
Definition minimal_found `{M : Model} (xs : list (list token))
    (max_beam_size k e : nat) (x0 x : list token) : Prop :=
  (x = x0 ∨ found xs max_beam_size k e x) ∧
  (length x ≤ length x0)%nat ∧
  ∀ y, found xs max_beam_size k e y → (length x ≤ length y)%nat.

Lemma slice_flat gs e g :
  gs !! e = Some g → slice (flat gs) e = beam_x <$> g.
Proof.
  intros He. unfold slice, flat. cbn [b_n_beams b_xs].
  rewrite list_lookup_fmap, He. cbn [fmap option_fmap option_map default].
  rewrite <- fmap_take, sum_list_lengths.
  pose proof (take_drop_middle gs e g He) as Hm.
  apply (f_equal (@concat beam)) in Hm. rewrite concat_app in Hm.
  cbn [concat] in Hm. rewrite <- Hm, !fmap_app.
  rewrite drop_app_length' by (by rewrite length_fmap).
  by rewrite take_app_length' by (by rewrite length_fmap).
Qed.

Lemma concat_eq_nil {A} (l : list (list A)) :
  concat l = [] → Forall (.= []) l.
Proof.
  induction l as [|g l IH]; intros H; [constructor|].
  simpl in H. apply app_eq_nil in H as [-> H]. constructor; auto.
Qed.

Lemma NoDup_all_eq {A} (a : A) l :
  NoDup l → l ≠ [] → Forall (.= a) l → l = [a].
Proof.
  intros Hnd Hne Hall. destruct l as [|x [|x' l]]; [done| |].
  - apply Forall_cons in Hall as [-> _]. done.
  - apply Forall_cons in Hall as [-> Hall].
    apply Forall_cons in Hall as [-> _].
    apply NoDup_cons in Hnd as [Hnin _]. exfalso. apply Hnin. by left.
Qed.

Section discovered.
Context `{M : Model}.
Context (max_beam_size : nat).

(** What [remove_one] makes at a round boundary, example by example. *)
Lemma remove_one_at xs j s :
  nsteps (step xs max_beam_size) j (initial_state xs) s →
  ∃ bs1, remove_one s.1 max_beam_size = Some bs1 ∧
    ∀ e x0, xs !! e = Some x0 →
      slice bs1 e
      = beam_x <$> expand_group max_beam_size
                     (ex_beams (state_at max_beam_size j x0)).
Proof.
  intros Hs. apply (nsteps_exact max_beam_size) in Hs as ->.
  eexists. split.
  - simpl. unfold beams_of. apply remove_one_exact.
    apply Forall_fmap. exact (state_at_aligned max_beam_size j xs).
  - intros e x0 Hx. apply slice_flat.
    by rewrite !list_lookup_fmap, Hx.
Qed.

Lemma found_exact xs k e x0 y :
  xs !! e = Some x0 → found xs max_beam_size k e y →
  ∃ j b, (j < k)%nat ∧
         b ∈ expand_group max_beam_size
               (ex_beams (state_at max_beam_size j x0)) ∧
         y = beam_x b ∧ predict y = predict x0.
Proof.
  intros Hx (j & s & bs1 & x0' & Hj & Hs & Hrem & Hy & Hx' & Hp).
  rewrite Hx in Hx'. injection Hx' as <-.
  destruct (remove_one_at xs j s Hs) as (bs1' & Hrem' & Hsl).
  rewrite Hrem in Hrem'. injection Hrem' as <-.
  rewrite (Hsl e x0 Hx) in Hy.
  apply list_elem_of_fmap in Hy as (b & -> & Hb). by exists j, b.
Qed.

Lemma found_intro xs k j s e x0 b :
  (j < k)%nat → nsteps (step xs max_beam_size) j (initial_state xs) s →
  xs !! e = Some x0 →
  b ∈ expand_group max_beam_size (ex_beams (state_at max_beam_size j x0)) →
  predict (beam_x b) = predict x0 →
  found xs max_beam_size k e (beam_x b).
Proof.
  intros Hj Hs Hx Hb Hp.
  destruct (remove_one_at xs j s Hs) as (bs1 & Hrem & Hsl).
  exists j, s, bs1, x0. do 3 (split; [done|]).
  split; [|done]. rewrite (Hsl e x0 Hx). by apply list_elem_of_fmap_2.
Qed.

(** While some example has a beam, the loop goes on. *)
Lemma reachable xs j :
  (∀ r, (1 ≤ r ≤ j)%nat →
        Exists (λ x, ex_beams (state_at max_beam_size r x) ≠ []) xs) →
  nsteps (step xs max_beam_size) j (initial_state xs)
         (beams_of (state_at max_beam_size j <$> xs),
          finals_of (state_at max_beam_size j <$> xs)).
Proof.
  induction j as [|j IH]; intros Hlive.
  - unfold initial_state.
    rewrite <- beams_of_initial, <- finals_of_initial. apply nsteps_O.
  - eapply nsteps_r; [apply IH; intros r Hr; apply Hlive; lia|].
    unfold step. simpl.
    destruct (state_at_constants max_beam_size j xs) as (Hys & _ & _).
    pose proof (round_exact max_beam_size _
                  (state_at_aligned max_beam_size j xs)) as Hround.
    assert (Hnext : step_example max_beam_size
                      <$> (state_at max_beam_size j <$> xs)
                    = state_at max_beam_size (S j) <$> xs)
      by (by rewrite <- list_fmap_compose).
    rewrite Hys, length_fmap, Hnext in Hround. rewrite Hround.
    rewrite decide_False; [done|]. intros Hnil.
    specialize (Hlive (S j) ltac:(lia)).
    apply Exists_exists in Hlive as (x & Hx & Hne). apply Hne.
    apply concat_eq_nil in Hnil. rewrite <- list_fmap_compose in Hnil.
    rewrite Forall_fmap, Forall_forall in Hnil. by apply Hnil.
Qed.

Lemma foldl_visit_origin (P : list token → Prop) y0 g :
  ∀ e, Forall P (ex_final_xs e) →
       Forall (λ b, predict (beam_x b) = y0 → P (beam_x b)) g →
       Forall P (ex_final_xs (foldl (visit_ex y0) e g)).
Proof.
  induction g as [|b g IH]; intros e He Hg; [done|].
  apply Forall_cons in Hg as [Hb Hg]. simpl. apply IH; [|done].
  unfold visit_ex. case_decide as Hp; [|done]. specialize (Hb Hp).
  unfold record_ex. repeat case_decide; simpl; try done.
  - by constructor.
  - apply Forall_app. split; [done|]. by constructor.
Qed.

(** A recorded sequence is the original or a candidate of an earlier
    round that has the prediction of the original. *)
Lemma state_at_origin k x0 :
  Forall (λ x, x = x0 ∨
               ∃ j b, (j < k)%nat ∧
                 b ∈ expand_group max_beam_size
                       (ex_beams (state_at max_beam_size j x0)) ∧
                 x = beam_x b ∧ predict x = predict x0)
         (ex_final_xs (state_at max_beam_size k x0)).
Proof.
  induction k as [|k IH].
  - simpl. constructor; [by left|done].
  - rewrite state_at_step. unfold book, expand_example. simpl.
    destruct (state_at_inv max_beam_size k x0) as [Hx0 _]. rewrite Hx0.
    apply foldl_visit_origin.
    + simpl. eapply Forall_impl; [exact IH|].
      intros x [->|(j & b & Hj & H)]; [by left|right].
      exists j, b. split; [lia|done].
    + apply Forall_forall. intros b Hb Hp. right. exists k, b.
      split; [lia|]. done.
Qed.

(** What is recorded is no longer than any candidate of an earlier round
    that has the prediction of the original. *)
Lemma state_at_minimal k x0 j b :
  (j < k)%nat →
  b ∈ expand_group max_beam_size (ex_beams (state_at max_beam_size j x0)) →
  predict (beam_x b) = predict x0 →
  (ex_final_length (state_at max_beam_size k x0) ≤ length (beam_x b))%nat.
Proof.
  intros Hj Hb Hp. replace k with (S j + (k - S j))%nat by lia.
  etrans; [apply state_at_length_le|].
  rewrite state_at_step. unfold book, expand_example. simpl.
  destruct (state_at_inv max_beam_size j x0) as [Hx0 _]. rewrite Hx0.
  by apply foldl_visit_found.
Qed.

Lemma recorded_minimal xs k e x0 x :
  (∀ j, (j < k)%nat →
        ∃ s, nsteps (step xs max_beam_size) j (initial_state xs) s) →
  xs !! e = Some x0 → x ∈ ex_final_xs (state_at max_beam_size k x0) →
  minimal_found xs max_beam_size k e x0 x.
Proof.
  intros Hreach Hx Hin.
  destruct (state_at_inv max_beam_size k x0) as [Hx0 [_ Hfin _ _ _]].
  assert (Hlen : length x = ex_final_length (state_at max_beam_size k x0)).
  { destruct Hfin as [_ Hl _ _ _ _]. rewrite Forall_forall in Hl.
    by apply Hl. }
  split; [|split].
  - pose proof (state_at_origin k x0) as Ho. rewrite Forall_forall in Ho.
    destruct (Ho x Hin) as [->|(j & b & Hj & Hb & -> & Hp)];
      [by left|right].
    destruct (Hreach j Hj) as [s Hs]. by eapply found_intro.
  - rewrite Hlen.
    exact (state_at_length_le max_beam_size 0 k x0).
  - intros y Hy.
    destruct (found_exact xs k e x0 y Hx Hy) as (j & b & Hj & Hb & -> & Hp).
    rewrite Hlen. by eapply state_at_minimal.
Qed.

(** A candidate of length 1 that has the prediction of the original is,
    from its round on, all that is recorded for its example. *)
Lemma terminator_recorded xs k e x0 y :
  xs !! e = Some x0 → found xs max_beam_size k e y → length y = 1%nat →
  ex_final_xs (state_at max_beam_size k x0) = [y].
Proof.
  intros Hx Hy Hone.
  destruct (found_exact xs k e x0 y Hx Hy) as (j & b & Hj & Hb & -> & Hp).
  pose proof (state_at_minimal k x0 j b Hj Hb Hp) as Hmin.
  destruct (state_at_candidates max_beam_size j x0) as [Hcand _].
  rewrite Forall_forall in Hcand.
  destruct (Hcand b Hb) as ([_ _ _ _ Hlast] & _).
  destruct (beam_x b) as [|t [|t' l]] eqn:Hbx; [done| |done].
  simpl in Hlast, Hmin.
  destruct (state_at_inv max_beam_size k x0) as [Hx0 [_ Hfin _ _ _]].
  destruct Hfin as [Hrec Hl _ Hnd Hne _]. rewrite Hx0 in Hrec.
  apply NoDup_all_eq; [done..|].
  apply Forall_forall. intros x Hin.
  rewrite Forall_forall in Hl. specialize (Hl x Hin).
  apply list_elem_of_lookup in Hin as [i Hi].
  destruct (Forall2_lookup_l _ _ _ _ _ Hrec Hi)
    as (r & _ & idx & [_ _ _ _ Hlx]).
  simpl in Hlx. rewrite <- Hlast in Hlx.
  destruct x as [|t1 [|t2 x]]; [done| |simpl in Hl; lia].
  simpl in Hlx. by injection Hlx as ->.
Qed.

(** C3 (one length per result set, the least discovered).  At return,
    all sequences recorded for an example have one and the same length;
    each of them is the original or a candidate that [remove_one] made
    for the example in one of the rounds and that has the prediction of
    the original, and neither the original nor any such candidate of any
    round is shorter.  After the bookkeeping of every round [k] the same
    holds of the candidates of the first [k] rounds; the recorded
    sequences have the length held in [final_length], no live beam of
    the example is shorter than that, and that length never grows in
    later rounds. *)
Theorem recorded_lengths_equal xs :
  (∀ n, ∃ rounds fxs frs,
      get_rawr (rounds_bound xs + n) xs max_beam_size
      = Returned rounds fxs frs ∧
      Forall (λ fx, ∃ len, Forall (λ x, length x = len) fx) fxs ∧
      ∀ e x0 fx x, xs !! e = Some x0 → fxs !! e = Some fx → x ∈ fx →
        minimal_found xs max_beam_size rounds e x0 x) ∧
  (∀ k s, nsteps (step xs max_beam_size) k (initial_state xs) s →
      Forall2 (λ fx len, Forall (λ x, length x = len) fx)
              (final_xs s.2) (final_length s.2) ∧
      (∃ groups, s.1 = flat groups ∧
         Forall2 (λ g len, Forall (λ b, len ≤ length (beam_x b))%nat g)
                 groups (final_length s.2)) ∧
      (∀ m s', nsteps (step xs max_beam_size) m s s' →
               lengths_shrink s.2 s'.2) ∧
      ∀ e x0 fx x, xs !! e = Some x0 → final_xs s.2 !! e = Some fx →
        x ∈ fx → minimal_found xs max_beam_size k e x0 x).
Proof.
  split.
  - intros n.
    destruct (get_rawr_exact max_beam_size xs n) as (R & HR & _ & _ & Hmid).
    exists R. do 2 eexists. split; [exact HR|]. split.
    + rewrite <- list_fmap_compose. apply Forall_fmap, Forall_forall.
      intros x0 _. simpl.
      destruct (state_at_inv max_beam_size R x0) as [_ [_ Hfin _ _ _]].
      destruct Hfin as [_ Hl _ _ _ _]. by eexists.
    + intros e x0 fx x Hx Hfx Hin.
      rewrite !list_lookup_fmap, Hx in Hfx. injection Hfx as <-.
      apply recorded_minimal; [|done..].
      intros j Hj. eexists. apply reachable.
      intros r Hr. apply Hmid. lia.
  - intros k s Hs.
    destruct (proj2 (recorded_lengths_shared xs max_beam_size) k s Hs)
      as (H1 & H2 & H3).
    do 3 (split; [done|]).
    intros e x0 fx x Hx Hfx Hin.
    pose proof (nsteps_exact max_beam_size _ _ _ Hs) as ->.
    simpl in Hfx. rewrite !list_lookup_fmap, Hx in Hfx.
    injection Hfx as <-.
    apply recorded_minimal; [|done..].
    intros j Hj. replace k with (j + (k - j))%nat in Hs by lia.
    apply nsteps_add_inv in Hs as (sj & Hsj & _). by exists sj.
Qed.

(** C8, amended (termination).  For a batch that is not empty,
    [get_rawr] returns after at least one and at most [max 1 (L - 1)]
    rounds, [L] the length of the longest sequence of the batch; [k]
    rounds into the search every live beam has lost exactly [k] tokens
    and, past the start, still has at least two: a candidate of length 1
    is not expanded.  Such a candidate, when it has the prediction of
    the original, stays recorded: it is the one result of its example at
    every round boundary from its round on, and at return. *)
Theorem get_rawr_terminates xs :
  xs ≠ [] →
  (∀ n, ∃ rounds fxs frs,
      get_rawr (rounds_bound xs + n) xs max_beam_size
      = Returned rounds fxs frs ∧
      (1 ≤ rounds ≤ 1 `max` (max_length xs - 1))%nat ∧
      ∀ e y, found xs max_beam_size rounds e y → length y = 1%nat →
             fxs !! e = Some [y]) ∧
  (∀ k s, nsteps (step xs max_beam_size) k (initial_state xs) s →
      (∃ groups, s.1 = flat groups ∧
        Forall2 (λ x0 g,
                   Forall (λ b, (length (beam_x b) + k = length x0)%nat ∧
                                ((1 ≤ k)%nat →
                                 (2 ≤ length (beam_x b))%nat)) g)
                xs groups) ∧
      ∀ e y, found xs max_beam_size k e y → length y = 1%nat →
             final_xs s.2 !! e = Some [y]).
Proof.
  intros _. split.
  - intros n.
    destruct (proj1 (search_rounds xs max_beam_size) n)
      as (rounds & fxs & frs & Hret & Hbound).
    exists rounds, fxs, frs. do 2 (split; [done|]).
    destruct (get_rawr_exact max_beam_size xs n) as (R & HR & _).
    rewrite Hret in HR. injection HR as -> -> ->.
    intros e y Hy Hone.
    pose proof Hy as (_ & _ & _ & x0 & _ & _ & _ & _ & Hx & _).
    rewrite !list_lookup_fmap, Hx. simpl. f_equal.
    by eapply terminator_recorded.
  - intros k s Hs. split.
    + exact (proj2 (search_rounds xs max_beam_size) k s Hs).
    + intros e y Hy Hone.
      pose proof Hy as (_ & _ & _ & x0 & _ & _ & _ & _ & Hx & _).
      pose proof (nsteps_exact max_beam_size _ _ _ Hs) as ->.
      simpl. rewrite !list_lookup_fmap, Hx. simpl. f_equal.
      by eapply terminator_recorded.
Qed.
End discovered.

(** ** Scenarios for the properties above *)



(** One beam, counted twice. *)
Definition overcounted : beams := Beams [[4; 2]] [2%nat] [[0; 1]%nat] [[]].

Lemma remove_one_overcount_witness :
  (length (b_xs overcounted) < sum_list (b_n_beams overcounted))%nat ∧
  @remove_one keyword_model overcounted 2 = None.
Proof.
  assert (H : (length (b_xs overcounted)
               < sum_list (b_n_beams overcounted))%nat)
    by (vm_compute; lia).
  split; [exact H|].
  exact (@remove_one_overcount keyword_model 2 overcounted H).
Defined.

Lemma beam_candidates_lowest_witness :
  scenario !! 0%nat = Some [4; 17; 9; 2] ∧
  ∃ js, @beam_coordinates keyword_model scenario 2 0
        = Some ((λ j, (@saliency keyword_model [4; 17; 9; 2] j,
                       (0%nat, j))) <$> js) ∧
        NoDup js ∧ length js = (2 `min` (length [4; 17; 9; 2] - 1))%nat ∧
        Forall (λ j, S j < length [4; 17; 9; 2])%nat js ∧
        ∀ j j', j ∈ js → (S j' < length [4; 17; 9; 2])%nat → j' ∉ js →
                @saliency keyword_model [4; 17; 9; 2] j
                ≤ @saliency keyword_model [4; 17; 9; 2] j'.
Proof.
  split; [reflexivity|].
  exact (@beam_candidates_lowest keyword_model 2 scenario 0 [4; 17; 9; 2]
           eq_refl).
Defined.

(** A batch of two sentences. *)
Definition scenario_pair : list (list token) := [[4; 17; 9; 2]; [17; 2]].

Lemma get_rawr_batch_independent_witness :
  scenario_pair !! 1%nat = Some [17; 2] ∧
  ∃ R R1 fxs frs fx fr,
    @get_rawr keyword_model (rounds_bound scenario_pair + 0) scenario_pair 2
    = Returned R fxs frs ∧
    @get_rawr keyword_model (rounds_bound [[17; 2]] + 0) [[17; 2]] 2
    = Returned R1 [fx] [fr] ∧
    fxs !! 1%nat = Some fx ∧ frs !! 1%nat = Some fr ∧ (R1 ≤ R)%nat.
Proof.
  split; [reflexivity|].
  exact (@get_rawr_batch_independent keyword_model 2 scenario_pair 1 [17; 2]
           0 0 eq_refl).
Defined.

Lemma reduction_found_witness :
  scenario !! 0%nat = Some [4; 17; 9; 2] ∧
  0%nat ∈ @tried keyword_model 2 [4; 17; 9; 2] ∧
  @predict keyword_model (remove_at 0 [4; 17; 9; 2])
  = @predict keyword_model [4; 17; 9; 2] ∧
  ∃ R fxs frs fx,
    @get_rawr keyword_model (rounds_bound scenario + 0) scenario 2
    = Returned R fxs frs ∧
    fxs !! 0%nat = Some fx ∧ fx ≠ [] ∧
    Forall (λ x, strict_subsequence x [4; 17; 9; 2] ∧
                 @predict keyword_model x
                 = @predict keyword_model [4; 17; 9; 2]) fx.
Proof.
  assert (Ht : 0%nat ∈ @tried keyword_model 2 [4; 17; 9; 2])
    by (vm_compute; constructor).
  assert (Hp : @predict keyword_model (remove_at 0 [4; 17; 9; 2])
               = @predict keyword_model [4; 17; 9; 2])
    by (vm_compute; reflexivity).
  split; [reflexivity|]. split; [exact Ht|]. split; [exact Hp|].
  exact (@reduction_found keyword_model 2 scenario 0 [4; 17; 9; 2] 0 0
           eq_refl Ht Hp).
Defined.



Lemma batch_bounded_witness :
  nsteps (@step keyword_model scenario 2) 1 (initial_state scenario)
         scenario_round_1 ∧
  length (b_n_beams scenario_round_1.1) = length scenario ∧
  Forall (λ n, (n ≤ 2)%nat) (b_n_beams scenario_round_1.1) ∧
  (length (b_xs scenario_round_1.1) ≤ 2 * length scenario)%nat.
Proof.
  assert (H : nsteps (@step keyword_model scenario 2) 1
                (initial_state scenario) scenario_round_1)
    by (apply nsteps_once; vm_compute; reflexivity).
  split; [exact H|].
  exact (@batch_bounded keyword_model 2 scenario 0 scenario_round_1 H).
Defined.

(** A model that scores two classes, a batch of two labelled sentences,
    and the entries that [main] makes of it: the second sentence, which
    does not hold 17, is paired with the reduction of the first. *)
Definition scenario_softmax (x : list token) : list score :=
  if decide (17 ∈ x) then [1; 3] else [3; 1].

Definition scenario_batch : batch :=
  Batch [[4; 17; 9; 2]; [5; 6; 2]] [1; 0].

Definition scenario_entry_0 : entry :=
  Entry [4; 17; 9; 2] [17; 2] 1 1 [1; 3] [1; 3] [0; 2]%nat 1.

Definition scenario_entry_1 : entry :=
  Entry [5; 6; 2] [17; 2] 0 1 [3; 1] [1; 3] [0; 2]%nat 0.

Lemma scenario_softmax_classes x : scenario_softmax x ≠ [].
Proof. unfold scenario_softmax. by case_decide. Qed.

Lemma checkpoint_batch_shape_witness :
  0 ≤ 0 ∧ batch_xs scenario_batch ≠ [] ∧
  (∀ x, scenario_softmax x ≠ []) ∧
  (∀ l : list (list token), length (id l) = length l) ∧
  (length (batch_xs scenario_batch) ≤ length (batch_ys scenario_batch))%nat ∧
  ∃ R fxs frs c,
    @get_rawr keyword_model (rounds_bound (batch_xs scenario_batch) + 0)
      (batch_xs scenario_batch) main_max_beam_size
    = Returned R fxs frs ∧
    @checkpoint_batch keyword_model scenario_softmax id 0
      (rounds_bound (batch_xs scenario_batch) + 0) scenario_batch
    = Finished c ∧
    length c = length (batch_xs scenario_batch) ∧
    Forall2 (λ fx es, length es = length fx) fxs c.
Proof.
  assert (H0 : 0 ≤ 0) by lia.
  assert (H1 : batch_xs scenario_batch ≠ []) by (simpl; discriminate).
  assert (H2 : ∀ l : list (list token), length (id l) = length l)
    by reflexivity.
  assert (H3 : (length (batch_xs scenario_batch)
                ≤ length (batch_ys scenario_batch))%nat)
    by (simpl; lia).
  split; [exact H0|]. split; [exact H1|].
  split; [exact scenario_softmax_classes|].
  split; [exact H2|]. split; [exact H3|].
  exact (@checkpoint_batch_shape keyword_model scenario_softmax id 0
           scenario_batch 0 H0 H1 scenario_softmax_classes H2 H3).
Defined.

Lemma entries_read_from_front_witness :
  @get_rawr keyword_model 3 (batch_xs scenario_batch) main_max_beam_size
  = Returned 3 [[[17; 2]]; [[2]]] [[[0; 2]]; [[0; 1]]]%nat ∧
  @checkpoint_batch keyword_model scenario_softmax id 0 3 scenario_batch
  = Finished [[scenario_entry_0]; [scenario_entry_1]] ∧
  [[scenario_entry_0]; [scenario_entry_1]] !! 1%nat
  = Some [scenario_entry_1] ∧
  [scenario_entry_1] !! 0%nat = Some scenario_entry_1 ∧
  batch_xs scenario_batch !! 1%nat
  = Some (original_input scenario_entry_1) ∧
  batch_ys scenario_batch !! 1%nat = Some (entry_label scenario_entry_1) ∧
  id (concat [[[17; 2]]; [[2]]]) !! 0%nat
  = Some (reduced_input scenario_entry_1) ∧
  concat [[[0; 2]]; [[0; 1]]]%nat !! 0%nat
  = Some (removed_indices scenario_entry_1) ∧
  original_scores scenario_entry_1
  = scenario_softmax (original_input scenario_entry_1) ∧
  reduced_scores scenario_entry_1
  = scenario_softmax (reduced_input scenario_entry_1) ∧
  (∀ fx0, (∀ l : list (list token), id l = l) →
          [[[17; 2]]; [[2]]] !! 0%nat = Some fx0 →
          (0 < length fx0)%nat →
          fx0 !! 0%nat = Some (reduced_input scenario_entry_1)).
Proof.
  assert (H1 : @get_rawr keyword_model 3 (batch_xs scenario_batch)
                 main_max_beam_size
               = Returned 3 [[[17; 2]]; [[2]]] [[[0; 2]]; [[0; 1]]]%nat)
    by (vm_compute; reflexivity).
  assert (H2 : @checkpoint_batch keyword_model scenario_softmax id 0 3
                 scenario_batch
               = Finished [[scenario_entry_0]; [scenario_entry_1]])
    by (vm_compute; reflexivity).
  split; [exact H1|]. split; [exact H2|].
  split; [reflexivity|]. split; [reflexivity|].
  exact (@entries_read_from_front keyword_model scenario_softmax id 0 3
           scenario_batch 3 _ _ _ 1 _ 0 scenario_entry_1
           H1 H2 eq_refl eq_refl).
Defined.

Lemma main_finishes_witness :
  0 ≤ 0 ∧
  (∀ x, scenario_softmax x ≠ []) ∧
  (∀ l : list (list token), length (id l) = length l) ∧
  Forall (λ b, batch_xs b ≠ [] ∧
               (rounds_bound (batch_xs b) ≤ 3)%nat ∧
               (length (batch_xs b) ≤ length (batch_ys b))%nat)
         (take 11 [scenario_batch]) ∧
  ∃ cp, @main keyword_model scenario_softmax id 0 3 [scenario_batch]
        = Finished cp ∧
        length cp
        = sum_list ((length ∘ batch_xs) <$> take 11 [scenario_batch]).
Proof.
  assert (H0 : 0 ≤ 0) by lia.
  assert (H2 : ∀ l : list (list token), length (id l) = length l)
    by reflexivity.
  assert (H3 : Forall (λ b, batch_xs b ≠ [] ∧
                            (rounds_bound (batch_xs b) ≤ 3)%nat ∧
                            (length (batch_xs b) ≤ length (batch_ys b))%nat)
                      (take 11 [scenario_batch])).
  { constructor; [|constructor].
    split; [simpl; discriminate|]. split; vm_compute; lia. }
  split; [exact H0|]. split; [exact scenario_softmax_classes|].
  split; [exact H2|]. split; [exact H3|].
  exact (@main_finishes keyword_model scenario_softmax id 0 3
           [scenario_batch] H0 scenario_softmax_classes H2 H3).
Defined.


(** A batch whose first sentence is down to its terminator after one
    round, while the second goes on; and its round state after that
    round. *)
Definition scenario_mixed : list (list token) := [[4; 2]; [4; 17; 9; 2]].

Definition scenario_mixed_round_1 : state :=
  (Beams [[4; 17; 2]; [17; 9; 2]] [0; 2]%nat [[0; 1; 3]; [1; 2; 3]]%nat
         [[2]; [0]]%nat,
   Finals [[[2]]; [[4; 17; 2]; [17; 9; 2]]] [[[0]]; [[2]; [0]]]%nat
          [1; 3]%nat).

Lemma scenario_mixed_found :
  @found keyword_model scenario_mixed 2 1 0 [2].
Proof.
  exists 0%nat, (initial_state scenario_mixed),
    (Beams [[2]; [4; 17; 2]; [17; 9; 2]] [1; 2]%nat
           [[1]; [0; 1; 3]; [1; 2; 3]]%nat [[0]; [2]; [0]]%nat), [4; 2].
  split; [lia|]. split; [apply nsteps_O|].
  split; [vm_compute; reflexivity|]. split; [vm_compute; constructor|].
  split; [reflexivity|vm_compute; reflexivity].
Qed.

Lemma recorded_lengths_equal_witness :
  nsteps (@step keyword_model scenario 2) 1 (initial_state scenario)
         scenario_round_1 ∧
  Forall2 (λ fx len, Forall (λ x, length x = len) fx)
          (final_xs scenario_round_1.2) (final_length scenario_round_1.2) ∧
  (∃ groups, scenario_round_1.1 = flat groups ∧
     Forall2 (λ g len, Forall (λ b, len ≤ length (beam_x b))%nat g)
             groups (final_length scenario_round_1.2)) ∧
  (∀ m s', nsteps (@step keyword_model scenario 2) m scenario_round_1 s' →
           lengths_shrink scenario_round_1.2 s'.2) ∧
  @minimal_found keyword_model scenario 2 1 0 [4; 17; 9; 2] [4; 17; 2].
Proof.
  assert (H : nsteps (@step keyword_model scenario 2) 1
                (initial_state scenario) scenario_round_1)
    by (apply nsteps_once; vm_compute; reflexivity).
  split; [exact H|].
  destruct (proj2 (@recorded_lengths_equal keyword_model 2 scenario)
                  1%nat scenario_round_1 H) as (H1 & H2 & H3 & H4).
  split; [exact H1|]. split; [exact H2|]. split; [exact H3|].
  apply (H4 0%nat [4; 17; 9; 2] [[4; 17; 2]; [17; 9; 2]] [4; 17; 2]);
    [reflexivity|reflexivity|constructor].
Defined.

Lemma get_rawr_terminates_witness :
  scenario_mixed ≠ [] ∧
  nsteps (@step keyword_model scenario_mixed 2) 1
         (initial_state scenario_mixed) scenario_mixed_round_1 ∧
  (∃ groups, scenario_mixed_round_1.1 = flat groups ∧
     Forall2 (λ x0 g,
                Forall (λ b, (length (beam_x b) + 1 = length x0)%nat ∧
                             ((1 ≤ 1)%nat →
                              (2 ≤ length (beam_x b))%nat)) g)
             scenario_mixed groups) ∧
  final_xs scenario_mixed_round_1.2 !! 0%nat = Some [[2]].
Proof.
  assert (H0 : scenario_mixed ≠ []) by discriminate.
  assert (H : nsteps (@step keyword_model scenario_mixed 2) 1
                (initial_state scenario_mixed) scenario_mixed_round_1)
    by (apply nsteps_once; vm_compute; reflexivity).
  split; [exact H0|]. split; [exact H|].
  destruct (proj2 (@get_rawr_terminates keyword_model 2 scenario_mixed H0)
                  1%nat scenario_mixed_round_1 H) as (H1 & H2).
  split; [exact H1|].
  exact (H2 0%nat [2] scenario_mixed_found eq_refl).
Defined.
